(** * Agora: event streams, account notifier, ledger ingestion and
      the DynamoDB-backed stores

    A shallow embedding of the Go sources
      - pkg/account/server/stream.go            (eventStream)
      - pkg/invoice/dynamodb/dynamodb.go        (invoice store)
      - pkg/account/solana/accountinfo/dynamodb/cache.go (cache)
      - pkg/appindex/static/resolver.go         (static resolver)
      - pkg/transaction/server/server.go        (transaction server)
    together with models of the account notifier and of the Stellar
    ledger ingestor, whose implementations are exercised by the test
    files of the repository. *)

From stdpp Require Import gmap strings list fin_maps.
From Stdlib Require Import ZArith Lia Ascii DecimalString DecimalN.

#[local] Set Warnings "-clear-no-such-hyp".

Local Open Scope string_scope.
Local Open Scope list_scope.
Local Open Scope Z_scope.

(** ** Go runtime: errors, faults and buffered channels *)

Module Go.

(** A Go [error] value.  [New] stands for a value freshly built by
    [errors.New] / [errors.Errorf] (identified by its rendered message),
    [Wrap] for [errors.Wrap(cause, msg)], and [Sentinel] for a package
    level error variable, which Go code compares by identity. *)
Inductive error : Type :=
| New (msg : string)
| Wrap (cause : error) (msg : string)
| Sentinel (pkg name : string).

(** What stops a goroutine abnormally. *)
Inductive Fault : Type :=
| Panic (msg : string)
| Deadlock.

(** Sequential code over a mutable state [St] that may fault. *)
Definition Run (St A : Type) : Type := St → Fault + (A * St).

#[global] Instance run_ret St : MRet (Run St) :=
  λ A (a : A) (s : St), inr (a, s).

#[global] Instance run_bind St : MBind (Run St) :=
  λ A B (f : A → Run St B) (c : Run St A) (s : St),
    match c s with
    | inl flt => inl flt
    | inr (a, s') => f a s'
    end.

(** A channel made by [make(chan A, cap)]: the buffered items, oldest
    first, the buffer capacity, and whether [close] was called on it. *)
Record chan (A : Type) : Type := mkChan {
  buf : list A;
  cap : nat;
  chClosed : bool;
}.
Arguments mkChan {A}.
Arguments buf {A}.
Arguments cap {A}.
Arguments chClosed {A}.

(** [make(chan A, size)]: a negative size panics. *)
Definition make_chan {A} (size : Z) : Fault + chan A :=
  if size <? 0 then inl (Panic "makechan: size out of range")
  else inr (mkChan [] (Z.to_nat size) false).

(** [select { case ch <- v: ... default: ... }] with no receiver parked
    on the channel: the send is taken exactly when the buffer has room.
    A send case on a closed channel panics. *)
Definition try_send {A} (v : A) : Run (chan A) bool :=
  λ ch,
    if chClosed ch then inl (Panic "send on closed channel")
    else if (length (buf ch) <? cap ch)%nat
         then inr (true, mkChan (buf ch ++ [v]) (cap ch) (chClosed ch))
         else inr (false, ch).

(** [close(ch)]: closing a closed channel panics. *)
Definition close_chan {A} : Run (chan A) unit :=
  λ ch,
    if chClosed ch then inl (Panic "close of closed channel")
    else inr (tt, mkChan (buf ch) (cap ch) true).

(** [select { case v, ok := <-ch: ... default: ... }]: the oldest
    buffered item if there is one (also after [close]); [None] when the
    buffer is empty. *)
Definition try_recv {A} : Run (chan A) (option A) :=
  λ ch,
    match buf ch with
    | [] => inr (None, ch)
    | v :: rest => inr (Some v, mkChan rest (cap ch) (chClosed ch))
    end.

End Go.
Import Go.

(** ** The XDR values the pipeline inspects *)

Module xdr.

(** An account id, rendered as its canonical address string. *)
Definition AccountId : Type := string.

Inductive OperationBody : Type :=
| Payment (destination : AccountId) (amount : Z)
| CreateAccount (destination : AccountId) (startingBalance : Z)
| AccountMerge (destination : AccountId).

Record Operation : Type := mkOperation {
  opSourceAccount : option AccountId;
  opBody : OperationBody;
}.

Record TransactionEnvelope : Type := mkEnvelope {
  txSourceAccount : AccountId;
  txOperations : list Operation;
}.

Record TransactionResult : Type := mkResult {
  feeCharged : Z;
  resultCode : Z;
}.

Inductive LedgerEntryChangeType : Type :=
| LedgerEntryCreated
| LedgerEntryUpdated
| LedgerEntryRemoved.

(** A change of an account ledger entry. *)
Record LedgerEntryChange : Type := mkLEC {
  lecType : LedgerEntryChangeType;
  lecAccount : AccountId;
}.

Record OperationMeta : Type := mkOperationMeta {
  changes : list LedgerEntryChange;
}.

Record TransactionMeta : Type := mkMeta {
  operationsMeta : list OperationMeta;
}.

End xdr.

(** ** pkg/account/server/stream.go *)

Module Stream.

Record eventData : Type := mkEventData {
  e : xdr.TransactionEnvelope;
  r : xdr.TransactionResult;
  m : xdr.TransactionMeta;
}.

(** [eventStream]: the embedded [sync.Mutex] (held or not), the
    [closed] flag and the delivery channel.  The logger is left out. *)
Record eventStream : Type := mkEventStream {
  mu : bool;
  closed : bool;
  streamCh : chan eventData;
}.

Definition newEventStream (bufferSize : Z) : Fault + eventStream :=
  match make_chan bufferSize with
  | inl flt => inl flt
  | inr ch => inr (mkEventStream false false ch)
  end.

(** The two errors [notify] builds with [errors.New]. *)
Definition StreamClosed : error := New "cannot notify closed stream".
Definition StreamFull : error := New "account event stream channel full".

(** [s.Lock()]: in a sequential run, locking a held mutex never returns. *)
Definition Lock : Run eventStream unit :=
  λ s, if mu s then inl Deadlock
       else inr (tt, mkEventStream true (closed s) (streamCh s)).

(** [s.Unlock()]: unlocking a free mutex is a fatal error. *)
Definition Unlock : Run eventStream unit :=
  λ s, if mu s then inr (tt, mkEventStream false (closed s) (streamCh s))
       else inl (Panic "sync: unlock of unlocked mutex").

Definition get_closed : Run eventStream bool := λ s, inr (closed s, s).

Definition set_closed (b : bool) : Run eventStream unit :=
  λ s, inr (tt, mkEventStream (mu s) b (streamCh s)).

(** Runs a channel operation on the stream's channel. *)
Definition on_chan {A} (op : Run (chan eventData) A) : Run eventStream A :=
  λ s, match op (streamCh s) with
       | inl flt => inl flt
       | inr (a, ch) => inr (a, mkEventStream (mu s) (closed s) ch)
       end.

(** [func (s *eventStream) close()]; the deferred [Unlock] runs last. *)
Definition close : Run eventStream unit :=
  Lock;;
  c ← get_closed;
  (if c : bool then mret tt
   else set_closed true;; on_chan close_chan);;
  Unlock.

(** [func (s *eventStream) notify(e, r, m) error]; [None] is [nil]. *)
Definition notify (e : xdr.TransactionEnvelope) (r : xdr.TransactionResult)
    (m : xdr.TransactionMeta) : Run eventStream (option error) :=
  Lock;;
  c ← get_closed;
  if c : bool then
    Unlock;;
    mret (Some StreamClosed)
  else
    sent ← on_chan (try_send (mkEventData e r m));
    if sent : bool then
      Unlock;;
      mret None
    else
      Unlock;;
      close;;
      mret (Some StreamFull).

Definition notifyData (d : eventData) : Run eventStream (option error) :=
  notify (e d) (r d) (m d).

(** The subscriber's non-blocking read of [s.streamCh]. *)
Definition receive : Run eventStream (option eventData) :=
  on_chan try_recv.

(** Consecutive [notify] calls with nothing consumed in between. *)
Fixpoint notifyAll (ds : list eventData) : Run eventStream (list (option error)) :=
  match ds with
  | [] => mret []
  | d :: rest =>
      res ← notifyData d;
      others ← notifyAll rest;
      mret (res :: others)
  end.

(** The streams a program can hold: made by [newEventStream] and then
    only touched through [notify], [close] and reads of the channel. *)
Inductive reachable : eventStream → Prop :=
| reach_new n s :
    newEventStream n = inr s → reachable s
| reach_notify s d res s' :
    reachable s → notifyData d s = inr (res, s') → reachable s'
| reach_close s s' :
    reachable s → close s = inr (tt, s') → reachable s'
| reach_receive s v s' :
    reachable s → receive s = inr (v, s') → reachable s'.

(** Between two calls the mutex is free, the flag mirrors the state of
    the channel, and the buffer respects its capacity. *)
Definition stream_inv (s : eventStream) : Prop :=
  mu s = false ∧ closed s = chClosed (streamCh s)
  ∧ (length (buf (streamCh s)) ≤ cap (streamCh s))%nat.

(** The stream [s] with [d] appended at the tail of its queue. *)
Definition enqueue (d : eventData) (s : eventStream) : eventStream :=
  mkEventStream (mu s) (closed s)
    (mkChan (buf (streamCh s) ++ [d]) (cap (streamCh s)) (chClosed (streamCh s))).

(** The stream [s] marked closed, with its channel closed. *)
Definition shut (s : eventStream) : eventStream :=
  mkEventStream (mu s) true
    (mkChan (buf (streamCh s)) (cap (streamCh s)) true).

End Stream.

(** ** The account notifier (pkg/account/server) *)

Module Notifier.
Import Stream.

(** A [*eventStream]: streams live in a heap and are shared by reference
    between the registry and their subscribers. *)
Definition ref : Type := nat.

Abbreviation heap := (gmap ref eventStream).

(** Modelled from the spec: the notifier's registry, missing from the
    sources at hand; a mapping from account address to a set of event
    streams. *)
Abbreviation registry := (gmap xdr.AccountId (gset ref)).

(** Modelled from the spec: [NewAccountNotifier], missing from the
    sources at hand; a notifier with no registration. *)
Definition NewAccountNotifier : registry := ∅.

(** The streams registered under an address; none for an address that
    was never registered. *)
Definition streamsOf (n : registry) (address : xdr.AccountId) : gset ref :=
  default ∅ (n !! address).

(** Modelled from the spec: [AddStream], missing from the sources at
    hand; registrations under one address add up, none replaces
    another. *)
Definition AddStream (address : xdr.AccountId) (s : ref) (n : registry) : registry :=
  <[address := {[s]} ∪ streamsOf n address]> n.

(** Modelled from the spec: the source an operation counts for, part of
    the derivation of the affected accounts, which is missing from the
    sources at hand; the operation's explicit source account if set,
    otherwise the transaction's top-level source account. *)
Definition sourceOf (env : xdr.TransactionEnvelope) (op : xdr.Operation) : xdr.AccountId :=
  default (xdr.txSourceAccount env) (xdr.opSourceAccount op).

(** Modelled from the spec: the accounts changed by a transaction, part
    of the same missing derivation; every account whose ledger entry the
    metadata records as created, updated or removed. *)
Definition changedAccounts (meta : xdr.TransactionMeta) : list xdr.AccountId :=
  flat_map (λ om, map xdr.lecAccount (xdr.changes om)) (xdr.operationsMeta meta).

(** Modelled from the spec: the derivation of the affected accounts,
    missing from the sources at hand; the set that unions, over all
    operations, the effective sources and the accounts with a changed
    ledger entry. *)
Definition affectedAccounts (env : xdr.TransactionEnvelope)
    (meta : xdr.TransactionMeta) : gset xdr.AccountId :=
  list_to_set (map (sourceOf env) (xdr.txOperations env) ++ changedAccounts meta).

(** Modelled from the spec: the streams [OnTransaction] must reach,
    whose code is missing from the sources at hand; those registered
    for some account of the set. *)
Definition subscribers (n : registry) (accounts : gset xdr.AccountId) : gset ref :=
  set_bind (streamsOf n) accounts.

(** One [notify] call made by the notifier: the stream and what
    [notify] returned. *)
Definition delivery : Type := ref * option error.

(** [s.notify(e, r, m)] through the reference [l]. *)
Definition notifyRef (ev : eventData) (l : ref) : Run heap (option error) :=
  λ h, match h !! l with
       | None => inl (Panic "invalid memory address or nil pointer dereference")
       | Some s =>
           match notifyData ev s with
           | inl flt => inl flt
           | inr (res, s') => inr (res, <[l := s']> h)
           end
       end.

(** Modelled from the spec: the best-effort multicast of
    [OnTransaction], whose code is missing from the sources at hand; the
    event goes to each stream of the list, and a failed [notify]
    (stream closed or full) is recorded and otherwise ignored. *)
Fixpoint deliver (ev : eventData) (ls : list ref) : Run heap (list delivery) :=
  match ls with
  | [] => mret []
  | l :: rest =>
      res ← notifyRef ev l;
      others ← deliver ev rest;
      mret ((l, res) :: others)
  end.

(** Modelled from the spec: [OnTransaction], missing from the sources
    at hand (its test is kept with stream.go); it computes the set of
    affected accounts and hands the event to every stream registered for
    one of them, never twice to the same stream, best effort.  The
    transaction result is passed along because [notify] takes it.  It
    returns the [notify] calls it made. *)
Definition OnTransaction (n : registry) (e : xdr.TransactionEnvelope)
    (r : xdr.TransactionResult) (m : xdr.TransactionMeta)
    : Run heap (list delivery) :=
  deliver (mkEventData e r m) (elements (subscribers n (affectedAccounts e m))).

(** Every registered stream is allocated and is a stream the program
    can hold. *)
Definition heap_ok (n : registry) (h : heap) : Prop :=
  ∀ a l, l ∈ streamsOf n a → ∃ s, h !! l = Some s ∧ reachable s.

End Notifier.

(** ** The Stellar ledger ingestor
       (pkg/transaction/history/ingestion/stellar) *)

Module Ingestion.

Definition bytes : Type := list Byte.byte.

(** The decimal rendering of a number, as [strconv] and [%d] print it. *)
Definition decimal (n : N) : string := NilZero.string_of_uint (N.to_uint n).

(** Reads a decimal rendering back. *)
Definition parseDecimal (s : string) : option N :=
  N.of_uint <$> NilZero.uint_of_string s.

(** The chain versions ([model.KinVersion]). *)
Inductive KinVersion : Type :=
| KinVersion_KIN2
| KinVersion_KIN3.

(** Modelled from the spec: the ledger pointer, built in the tests by
    [pointerFromSequence], which is missing from the sources at hand; an
    opaque resumption token that encodes a ledger sequence number.  The
    nil pointer is [None]. *)
Record pointer : Type := mkPointer {
  ptrVersion : KinVersion;
  ptrSequence : N;
}.

Definition Pointer : Type := option pointer.

(** Modelled from the spec: [pointerFromSequence], missing from the
    sources at hand; the pointer that encodes the sequence [seq]. *)
Definition pointerFromSequence (v : KinVersion) (seq : N) : Pointer :=
  Some (mkPointer v seq).

(** Modelled from the spec: the paging token of a pointer, whose code is
    missing from the sources at hand; the sequence number in the
    high-order bits, the index within the ledger in the low-order bits
    (sequence × 2^32). *)
Definition pagingToken (p : pointer) : N := N.shiftl (ptrSequence p) 32.

(** Modelled from the spec: the cursor a pointer resolves to, whose code
    is missing from the sources at hand; the nil pointer encodes to the
    zero token. *)
Definition cursorFromPointer (p : Pointer) : string :=
  match p with
  | None => "0"
  | Some q => decimal (pagingToken q)
  end.

(** The parts of the Horizon protocol the ingestor and its tests use. *)
Inductive Order : Type := OrderAsc | OrderDesc.

Record LedgerRequest : Type := mkLedgerRequest {
  Cursor : string;
  order : Order;
}.

Record TransactionRequest : Type := mkTransactionRequest {
  ForLedger : Z;
}.

Record Ledger : Type := mkLedger {
  Sequence : Z;
}.

(** Modelled from the spec: a transaction of a ledger, as the ledger API
    hands it to the ingestor, with its raw envelope and its raw result;
    the record type of the API is missing from the sources at hand, and
    its wire format (the tests render both fields in base64) is left
    out. *)
Record Transaction : Type := mkTransaction {
  EnvelopeXdr : bytes;
  ResultXdr : bytes;
}.

Record TransactionsPage : Type := mkPage {
  Records : list Transaction;
}.

(** The ledger API client: the push subscription, given here by the
    headers it delivers, in arrival order, until the context is
    cancelled (or by the error that prevents the subscription), and the
    fetch of one ledger's transactions. *)
Record ClientInterface : Type := mkClient {
  StreamLedgers : LedgerRequest → error + list Ledger;
  Transactions : TransactionRequest → error + TransactionsPage;
}.

(** A call received by the client, as a mock records it. *)
Inductive Call : Type :=
| StreamLedgersCall (req : LedgerRequest)
| TransactionsCall (req : TransactionRequest).

(** One persisted transaction record, with the fields the tests read:
    the version tag, the ledger sequence and the raw envelope and
    result. *)
Record Entry : Type := mkEntry {
  entryVersion : KinVersion;
  entryLedger : Z;
  entryEnvelopeXdr : bytes;
  entryResultXdr : bytes;
}.

(** The history writer, an external collaborator: it takes a batch
    whole or fails it. *)
Record Writer : Type := mkWriter {
  Write : list Entry → option error;
}.

(** The outcome of ingesting one ledger, with the fields the tests
    read; a nil [Block], [Parent] or [Err] is [None]. *)
Record Result : Type := mkIngestResult {
  Block : option bytes;
  Parent : option bytes;
  Err : option error;
}.

(** The ingestor the tests build with [New(version, client)]. *)
Record ingestor : Type := New {
  version : KinVersion;
  client : ClientInterface;
}.

Section Ingest.

(** The content fingerprint of a ledger's ingested entries. *)
Variable fingerprint : Ledger → list Entry → bytes.

Variable i : ingestor.
Variable w : Writer.

(** Modelled from the spec: the conversion of a transaction into an
    entry, missing from the sources at hand; the entry is tagged with
    the chain version and the ledger sequence and carries the raw
    envelope and result of the transaction. *)
Definition toEntry (l : Ledger) (tx : Transaction) : Entry :=
  mkEntry (version i) (Sequence l) (EnvelopeXdr tx) (ResultXdr tx).

(** Modelled from the spec: the task of one ledger, missing from the
    sources at hand.  It fetches the ledger's transaction page, converts
    each transaction into an entry and writes the batch through the
    writer; [Block] is the fingerprint of what was ingested and [Parent]
    the [Block] of the ledger before; a fetch or write failure is
    carried in [Err].  With the result comes the batch that was handed
    to the writer: none when the fetch failed. *)
Definition ingestLedger (parent : option bytes) (l : Ledger)
    : Result * option (list Entry) :=
  match Transactions (client i) (mkTransactionRequest (Sequence l)) with
  | inl err => (mkIngestResult None parent (Some err), None)
  | inr page =>
      let entries := toEntry l <$> Records page in
      match Write w entries with
      | Some err => (mkIngestResult None parent (Some err), Some entries)
      | None =>
          (mkIngestResult (Some (fingerprint l entries)) parent None,
           Some entries)
      end
  end.

(** Modelled from the spec: the ordered feed, missing from the sources
    at hand; one slot per ledger, in arrival order, each result naming
    the [Block] of the one before as its [Parent].  The feed orders the
    results only: the tasks of the ledgers may finish in any order, so
    the list of the batches says which ledger handed which batch to the
    writer, not when. *)
Fixpoint ingestLedgers (parent : option bytes) (ls : list Ledger)
    : list (Result * option (list Entry)) :=
  match ls with
  | [] => []
  | l :: rest =>
      let slot := ingestLedger parent l in
      slot :: ingestLedgers (Block slot.1) rest
  end.

(** Modelled from the spec: the subscription request of a run started
    at [start], whose code is missing from the sources at hand; the
    resolved cursor, in ascending order. *)
Definition ledgerRequest (start : Pointer) : LedgerRequest :=
  mkLedgerRequest (cursorFromPointer start) OrderAsc.

(** Modelled from the spec: [Ingest], missing from the sources at hand
    (its test is stellar_test.go).  It opens the subscription at the
    cursor of the start pointer, in ascending order, and fails when the
    subscription cannot be set up; the first result of a run names no
    parent.  It returns the calls the client received and, unless the
    setup failed, the results delivered on the ordered feed with, for
    each ledger, the batch handed to the writer. *)
Definition Ingest (start : Pointer)
    : list Call * (error + list Result * list (option (list Entry))) :=
  let req := ledgerRequest start in
  match StreamLedgers (client i) req with
  | inl err => ([StreamLedgersCall req], inl err)
  | inr ledgers =>
      let slots := ingestLedgers None ledgers in
      (StreamLedgersCall req
         :: map (λ l, TransactionsCall (mkTransactionRequest (Sequence l))) ledgers,
       inr (slots.*1, slots.*2))
  end.

(** Modelled from the spec: what the writer receives in a run whose
    ledgers handed it [batches]; every batch whole, the batches in the
    order in which the tasks of the ledgers finish, which the design
    leaves open. *)
Definition writerReceives (batches : list (option (list Entry)))
    (received : list Entry) : Prop :=
  ∃ order, order ≡ₚ omap id batches ∧ received = mjoin order.

(** The batch the task of a ledger hands to the writer. *)
Definition batchOf (l : Ledger) : option (list Entry) :=
  match Transactions (client i) (mkTransactionRequest (Sequence l)) with
  | inl _ => None
  | inr page => Some (toEntry l <$> Records page)
  end.

(** The entry [e] is the record of the transaction [tx] of ledger [l]:
    it carries the configured version, the ledger's sequence, and the
    envelope and the result of [tx]. *)
Definition recordOf (l : Ledger) (tx : Transaction) (e : Entry) : Prop :=
  entryVersion e = version i
  ∧ entryLedger e = Sequence l
  ∧ entryEnvelopeXdr e = EnvelopeXdr tx
  ∧ entryResultXdr e = ResultXdr tx.

(** The number of transactions the client fetches for a ledger: those
    of its page, and none when the fetch fails. *)
Definition fetchedCount (l : Ledger) : nat :=
  match Transactions (client i) (mkTransactionRequest (Sequence l)) with
  | inl _ => 0%nat
  | inr page => length (Records page)
  end.

End Ingest.

End Ingestion.

(** ** The DynamoDB client, as the two stores use it *)

Module Dynamo.

Inductive AttributeValue : Type :=
| AttrB (b : Ingestion.bytes)
| AttrN (n : string)
| AttrS (s : string).

Abbreviation Item := (gmap string AttributeValue).

Record GetItemInput : Type := mkGetItemInput {
  TableName : string;
  Key : gmap string AttributeValue;
}.

Record GetItemOutput : Type := mkGetItemOutput {
  item : gmap string AttributeValue;
}.

(** [dynamodbiface.ClientAPI], reduced to what [GetItemRequest(..).Send]
    answers. *)
Record ClientAPI : Type := mkClientAPI {
  SendGetItem : GetItemInput → error + GetItemOutput;
}.

(** Issues a request: the client records it and answers. *)
Definition send (c : ClientAPI) (req : GetItemInput) (sent : list GetItemInput)
    : (error + GetItemOutput) * list GetItemInput :=
  (SendGetItem c req, sent ++ [req]).

End Dynamo.

(** ** pkg/invoice/dynamodb/dynamodb.go *)

Module InvoiceStore.
Import Dynamo.

(** [invoice.ErrNotFound]. *)
Definition ErrNotFound : error := Sentinel "invoice" "ErrNotFound".

Definition lenText (b : Ingestion.bytes) : string :=
  Ingestion.decimal (N.of_nat (length b)).

Section Store.

(** [commonpb.Invoice]. *)
Variable Invoice : Type.

(** The table constants and the decoder of a stored item, declared in
    another file of the package. *)
Variable tableNameStr tableHashKey tableRangeKey : string.
Variable fromItem : gmap string AttributeValue → error + Invoice.

Record db : Type := mkDb {
  client : ClientAPI;
}.

Definition New (c : ClientAPI) : db := mkDb c.

(** [func (d *db) Get(ctx, invoiceHash, txHash)], which returns the
    invoice or an error.
    The second component is the list of requests the datastore has
    received. *)
Definition Get (d : db) (invoiceHash txHash : Ingestion.bytes)
    (sent : list GetItemInput) : (error + Invoice) * list GetItemInput :=
  if negb (length invoiceHash =? 28)%nat then
    (inl (Go.New (String.append "invalid invoice hash len: " (lenText invoiceHash))), sent)
  else if negb (length txHash =? 32)%nat then
    (inl (Go.New (String.append "invalid transaction hash len: " (lenText txHash))), sent)
  else
    let '(resp, sent') :=
      send (client d)
        (mkGetItemInput tableNameStr
           {[ tableHashKey := AttrB invoiceHash; tableRangeKey := AttrB txHash ]})
        sent in
    match resp with
    | inl err => (inl (Wrap err "failed to get invoice"), sent')
    | inr out =>
        if (size (item out) =? 0)%nat then (inl ErrNotFound, sent')
        else (fromItem (item out), sent')
    end.

End Store.

End InvoiceStore.

(** ** pkg/account/solana/accountinfo/dynamodb/cache.go *)

Module AccountInfoCache.
Import Dynamo.

(** [accountinfo.ErrAccountInfoNotFound]. *)
Definition ErrAccountInfoNotFound : error :=
  Sentinel "accountinfo" "ErrAccountInfoNotFound".

(** A [time.Time] instant, in nanoseconds. *)
Definition Time : Type := Z.

(** [t.Before(u)]. *)
Definition Before (t u : Time) : bool := t <? u.

Section Cache.

(** [accountpb.AccountInfo]. *)
Variable AccountInfo : Type.

(** The table constants and the decoder of a stored item, declared in
    another file of the package. *)
Variable tableNameStr tableHashKey : string.
Variable fromItem : gmap string AttributeValue → error + AccountInfo * Time.

Record cache : Type := mkCache {
  client : ClientAPI;
  itemTTL : Z;
}.

Definition New (c : ClientAPI) (ttl : Z) : cache := mkCache c ttl.

(** [func (c *cache) Get(ctx, key)], which returns the cached account
    info or an error;
    [now] is what [time.Now()] reads at the expiry check. *)
Definition Get (c : cache) (key : Ingestion.bytes) (now : Time)
    : error + AccountInfo :=
  match SendGetItem (client c)
          (mkGetItemInput tableNameStr {[ tableHashKey := AttrB key ]}) with
  | inl err => inl (Wrap err "failed to get account info")
  | inr resp =>
      if (size (item resp) =? 0)%nat then inl ErrAccountInfoNotFound
      else
        match fromItem (item resp) with
        | inl err => inl err
        | inr (info, expiry) =>
            if Before expiry now then inl ErrAccountInfoNotFound
            else inr info
        end
  end.

End Cache.

End AccountInfoCache.

(** ** Sample values, after the tests of the repository *)

Module Examples.
Import Stream Notifier Ingestion Dynamo.

(** Three accounts, as in [TestAccountNotifier_PaymentOperation]. *)
Definition acc1 : xdr.AccountId := "GACCOUNT1".
Definition acc2 : xdr.AccountId := "GACCOUNT2".
Definition acc3 : xdr.AccountId := "GACCOUNT3".

Definition updated (a : xdr.AccountId) : xdr.LedgerEntryChange :=
  xdr.mkLEC xdr.LedgerEntryUpdated a.

(** Payment from 1 to 2. *)
Definition payment12 : xdr.TransactionEnvelope :=
  xdr.mkEnvelope acc1 [xdr.mkOperation None (xdr.Payment acc2 10)].
Definition meta12 : xdr.TransactionMeta :=
  xdr.mkMeta [xdr.mkOperationMeta [updated acc1; updated acc2]].

(** Payment from 2 to 3, with 1 as a channel source. *)
Definition payment23 : xdr.TransactionEnvelope :=
  xdr.mkEnvelope acc1 [xdr.mkOperation (Some acc2) (xdr.Payment acc3 10)].
Definition meta23 : xdr.TransactionMeta :=
  xdr.mkMeta [xdr.mkOperationMeta [updated acc1; updated acc2; updated acc3]].

Definition success : xdr.TransactionResult := xdr.mkResult 100 0.

Definition event12 : eventData := mkEventData payment12 success meta12.
Definition event23 : eventData := mkEventData payment23 success meta23.

(** What [newEventStream(n)] returns for a size that is not negative. *)
Definition fresh (n : nat) : eventStream :=
  mkEventStream false false (mkChan [] n false).

(** Three subscribers, one per account, each with a stream of size 5. *)
Definition threeStreams : gmap ref eventStream :=
  {[ 1%nat := fresh 5; 2%nat := fresh 5; 3%nat := fresh 5 ]}.

Definition threeAccounts : gmap xdr.AccountId (gset ref) :=
  AddStream acc3 3%nat (AddStream acc2 2%nat (AddStream acc1 1%nat NewAccountNotifier)).

(** One subscriber of account 1, whose stream of one slot already holds
    an event: the stream is open and full. *)
Definition fullStream : eventStream := enqueue event23 (fresh 1).

Definition slowSubscriber : gmap ref eventStream := {[ 1%nat := fullStream ]}.

Definition oneAccount : gmap xdr.AccountId (gset ref) :=
  AddStream acc1 1%nat NewAccountNotifier.

(** A metadata that records no change of a ledger entry. *)
Definition noChanges : xdr.TransactionMeta := xdr.mkMeta [].

(** The number of events queued on the streams 1, 2 and 3. *)
Definition queueLengths (h : gmap ref eventStream) : list (option nat) :=
  (λ l, (λ s, length (buf (streamCh s))) <$> h !! l) <$> [1; 2; 3]%nat.

(** The value of a character of the standard base64 alphabet. *)
Definition b64value (c : Ascii.ascii) : option N :=
  let n := N_of_ascii c in
  if ((65 <=? n) && (n <=? 90))%N then Some (n - 65)%N
  else if ((97 <=? n) && (n <=? 122))%N then Some (n - 71)%N
  else if ((48 <=? n) && (n <=? 57))%N then Some (n + 4)%N
  else if (n =? 43)%N then Some 62%N
  else if (n =? 47)%N then Some 63%N
  else None.

Definition isPad (c : Ascii.ascii) : bool := (N_of_ascii c =? 61)%N.

(** A strict decoder of padded base64, four characters at a time. *)
Fixpoint decodeQuads (cs : list Ascii.ascii) : option (list N) :=
  match cs with
  | [] => Some []
  | a :: b :: c :: d :: rest =>
      va ← b64value a;
      vb ← b64value b;
      if isPad d then
        match rest with
        | [] =>
            if isPad c then Some [va * 4 + vb / 16]%N
            else
              vc ← b64value c;
              Some [va * 4 + vb / 16; (vb mod 16) * 16 + vc / 4]%N
        | _ => None
        end
      else
        vc ← b64value c;
        vd ← b64value d;
        tl ← decodeQuads rest;
        Some ((va * 4 + vb / 16) :: ((vb mod 16) * 16 + vc / 4)
                :: ((vc mod 4) * 64 + vd) :: tl)%N
  | _ => None
  end.

Definition byteOf (n : N) : Byte.byte := default Byte.x00 (Byte.of_N n).

(** A stand-in for [base64.StdEncoding.DecodeString]. *)
Definition decodeString (s : string) : error + bytes :=
  match decodeQuads (String.list_ascii_of_string s) with
  | Some ns => inr (map byteOf ns)
  | None => inl (Go.New "illegal base64 data")
  end.

(** A stand-in for the fingerprint: the envelopes, one after another. *)
Definition envelopes (l : Ledger) (entries : list Entry) : bytes :=
  flat_map entryEnvelopeXdr entries.

(** A chain of two ledgers that contain two and one transactions. *)
Definition ledgers : list Ledger := [mkLedger 0; mkLedger 1].

Definition chainContent (sequence : Z) : list Transaction :=
  if sequence =? 0 then
    [mkTransaction [Byte.x00; Byte.x01; Byte.x02] [Byte.x00; Byte.x00; Byte.x00];
     mkTransaction [Byte.x03; Byte.x04; Byte.x05] [Byte.x00; Byte.x00; Byte.x01]]
  else if sequence =? 1 then
    [mkTransaction [Byte.x06; Byte.x07; Byte.x08] [Byte.xff]]
  else [].

(** A client that serves the chain. *)
Definition horizon : ClientInterface :=
  mkClient
    (λ _, inr ledgers)
    (λ req, inr (mkPage (chainContent (ForLedger req)))).

(** A client over the same chain whose fetch of ledger 1 fails. *)
Definition flaky : ClientInterface :=
  mkClient
    (λ _, inr ledgers)
    (λ req,
       if ForLedger req =? 1 then inl (Go.New "connection reset")
       else inr (mkPage (chainContent (ForLedger req)))).

Definition kin3 : ingestor := Ingestion.New KinVersion_KIN3 horizon.

(** A writer that takes every batch, and one that fails every batch. *)
Definition memory : Writer := mkWriter (λ _, None).
Definition broken : Writer := mkWriter (λ _, Some (Go.New "write failed")).

(** An invoice table whose items keep their contents under one
    attribute, and its decoder. *)
Definition contentsOf (it : gmap string AttributeValue) : error + bytes :=
  match it !! "contents" with
  | Some (AttrB b) => inr b
  | _ => inl (Go.New "invalid invoice item")
  end.

Definition emptyTable : ClientAPI :=
  mkClientAPI (λ _, inr (mkGetItemOutput ∅)).

(** A cache table with one item, which expires at instant 100. *)
Definition infoOf (it : gmap string AttributeValue) : error + bytes * Z :=
  match it !! "account_info", it !! "expiry" with
  | Some (AttrB b), Some (AttrN n) =>
      match parseDecimal n with
      | Some t => inr (b, Z.of_N t)
      | None => inl (Go.New "invalid expiry")
      end
  | _, _ => inl (Go.New "invalid account info item")
  end.

Definition oneItem : ClientAPI :=
  mkClientAPI
    (λ _, inr (mkGetItemOutput
                 {[ "account_info" := AttrB [Byte.x01]; "expiry" := AttrN "100" ]})).

End Examples.

(** ** Event streams over time: the holder's steps and the subscriber's
       reads *)

Module StreamOps.
Import Stream.

(** One step taken on a stream by one of its holders: a [notify], a
    [close], or a read of the channel by the subscriber. *)
Inductive step : eventStream → eventStream → Prop :=
| step_notify s d res s' : notifyData d s = inr (res, s') → step s s'
| step_close s s' : close s = inr (tt, s') → step s s'
| step_receive s v s' : receive s = inr (v, s') → step s s'.

(** [n] non-blocking reads of [s.streamCh] in a row, as [assertReceived]
    does one; the events read, in the order they were read. *)
Fixpoint drain (n : nat) : Run eventStream (list eventData) :=
  match n with
  | O => mret []
  | S k =>
      v ← receive;
      vs ← drain k;
      mret (match v with
            | Some d => d :: vs
            | None => vs
            end)
  end.

End StreamOps.

(** ** The DynamoDB client: puts and queries *)

Module DynamoWrites.
Import Dynamo.

(** [dynamodb.PutItemInput]; a nil [ConditionExpression] is [None]. *)
Record PutItemInput : Type := mkPutItemInput {
  putTableName : string;
  putItem : gmap string AttributeValue;
  ConditionExpression : option string;
}.

(** [dynamodb.QueryInput]; a nil [Limit] is [None]. *)
Record QueryInput : Type := mkQueryInput {
  queryTableName : string;
  KeyConditionExpression : string;
  ExpressionAttributeValues : gmap string AttributeValue;
  Limit : option Z;
}.

Record QueryOutput : Type := mkQueryOutput {
  Items : list (gmap string AttributeValue);
}.

(** [dynamodbiface.ClientAPI], reduced to what [PutItemRequest(..).Send]
    and [QueryRequest(..).Send] answer; [None] is a nil error. *)
Record WriteAPI : Type := mkWriteAPI {
  SendPutItem : PutItemInput → option error;
  SendQuery : QueryInput → error + QueryOutput;
}.

(** [dynamodb.ErrCodeConditionalCheckFailedException]. *)
Definition ErrCodeConditionalCheckFailedException : string :=
  "ConditionalCheckFailedException".

End DynamoWrites.

(** ** pkg/invoice/dynamodb/dynamodb.go: Add and Exists *)

Module InvoiceWrites.
Import Dynamo DynamoWrites.

(** [invoice.ErrExists]. *)
Definition ErrExists : error := Sentinel "invoice" "ErrExists".

Section Store.

(** [commonpb.Invoice]. *)
Variable Invoice : Type.

(** The table constants and the encoder of an item, declared in another
    file of the package. *)
Variable tableNameStr putConditionStr existsKeyConditionStr : string.
Variable toItem : Invoice → Ingestion.bytes → error + gmap string AttributeValue.

(** [err.(awserr.Error)] followed by [Code()]: the AWS error code of an
    error that carries one. *)
Variable awsCode : error → option string.

(** [func (d *db) Add(ctx, inv, txHash) error], over the put side of the
    client.  The second component is the list of puts the datastore has
    received. *)
Definition Add (api : WriteAPI) (inv : Invoice) (txHash : Ingestion.bytes)
    (puts : list PutItemInput) : option error * list PutItemInput :=
  match toItem inv txHash with
  | inl err => (Some err, puts)
  | inr it =>
      let req := mkPutItemInput tableNameStr it (Some putConditionStr) in
      match SendPutItem api req with
      | Some err =>
          match awsCode err with
          | Some code =>
              if String.eqb code ErrCodeConditionalCheckFailedException
              then (Some ErrExists, puts ++ [req])
              else (Some (Wrap err "failed to store invoice"), puts ++ [req])
          | None => (Some (Wrap err "failed to store invoice"), puts ++ [req])
          end
      | None => (None, puts ++ [req])
      end
  end.

(** [func (d *db) Exists(ctx, invoiceHash) (bool, error)], over the
    query side of the client.  The second component is the list of
    queries the datastore has received. *)
Definition Exists (api : WriteAPI) (invoiceHash : Ingestion.bytes)
    (queries : list QueryInput) : (bool * option error) * list QueryInput :=
  let input :=
    mkQueryInput tableNameStr existsKeyConditionStr
      {[ ":invoice_hash" := AttrB invoiceHash ]} (Some 1) in
  match SendQuery api input with
  | inl err => ((false, Some (Wrap err "failed to query invoices")), queries ++ [input])
  | inr resp => ((0 <? length (Items resp))%nat, None, queries ++ [input])
  end.

End Store.

End InvoiceWrites.

(** ** pkg/account/solana/accountinfo/dynamodb/cache.go: Put *)

Module AccountInfoCacheWrites.
Import Dynamo DynamoWrites AccountInfoCache.

Section Cache.

(** [accountpb.AccountInfo]. *)
Variable AccountInfo : Type.

(** The table name and the encoder of an item, declared in another file
    of the package. *)
Variable tableNameStr : string.
Variable toItem : AccountInfo → Time → error + gmap string AttributeValue.

(** [func (c *cache) Put(ctx, info) error], over the put side of the
    client; [now] is what [time.Now()] reads.  The second component is
    the list of puts the datastore has received. *)
Definition Put (c : cache) (api : WriteAPI) (info : AccountInfo) (now : Time)
    (puts : list PutItemInput) : option error * list PutItemInput :=
  match toItem info (now + itemTTL c) with
  | inl err => (Some err, puts)
  | inr it =>
      let req := mkPutItemInput tableNameStr it None in
      match SendPutItem api req with
      | Some err => (Some (Wrap err "failed to store account info"), puts ++ [req])
      | None => (None, puts ++ [req])
      end
  end.

End Cache.

End AccountInfoCacheWrites.

(** ** pkg/appindex/static/resolver.go *)

Module StaticResolver.

(** [appindex.ErrNotFound]. *)
Definition ErrNotFound : error := Sentinel "appindex" "ErrNotFound".

(** [common.AgoraDataUrl]. *)
Record AgoraDataUrl : Type := mkAgoraDataUrl {
  Value : string;
}.

(** The static table of the package, from app index to domain. *)
Definition mapping : gmap N string :=
  {[ 0%N := "test.kin.org"; 1%N := "api.kik.com" ]}.

Section Resolver.

(** [kin.Memo.AppIndex], which reads the app index out of a memo, and
    [base64.URLEncoding.EncodeToString]. *)
Variable AppIndex : Ingestion.bytes → N.
Variable EncodeToString : Ingestion.bytes → string.

(** [func (r *resolver) Resolve(_, m)]; the URL is what
    [fmt.Sprintf("https://%s/agora/resolve/%s", domain, ...)] prints. *)
Definition Resolve (m : Ingestion.bytes) : error + AgoraDataUrl :=
  match mapping !! AppIndex m with
  | None => inl ErrNotFound
  | Some domain =>
      inr (mkAgoraDataUrl
             (String.append "https://"
                (String.append domain
                   (String.append "/agora/resolve/" (EncodeToString m)))))
  end.

End Resolver.

End StaticResolver.

(** ** pkg/transaction/server/server.go *)

Module TransactionServer.

Abbreviation bytes := Ingestion.bytes.

#[global] Instance error_eq_dec : EqDecision error.
Proof. solve_decision. Defined.

(** The gRPC codes the server answers with, and [status.Error(c, msg)]. *)
Inductive Code : Type := InvalidArgument | NotFound | Internal.

Record Status : Type := mkStatus {
  code : Code;
  message : string;
}.

(** [http.StatusNotFound]. *)
Definition StatusNotFound : Z := 404.

(** [data.ErrNotFound]. *)
Definition dataErrNotFound : error := Sentinel "data" "ErrNotFound".

(** The messages of the transaction service.  A field that is a pointer
    in Go and may be nil is an [option]. *)
Record TransactionHash : Type := mkTransactionHash {
  hashValue : bytes;
}.

Record SubmitSendRequest : Type := mkSubmitSendRequest {
  TransactionXdr : bytes;
}.

Record SubmitSendResponse : Type := mkSubmitSendResponse {
  sendHash : TransactionHash;
  sendLedger : Z;
  sendResultXdr : bytes;
}.

Record GetTransactionRequest : Type := mkGetTransactionRequest {
  reqTransactionHash : option TransactionHash;
}.

Inductive Direction : Type := ASC | DESC | OtherDirection (n : Z).

Record GetHistoryRequest : Type := mkGetHistoryRequest {
  reqAccountId : option string;
  reqDirection : Direction;
  reqCursor : option bytes;
}.

Inductive State : Type := UNKNOWN | SUCCESS.

Section Server.

(** [common.AgoraData]. *)
Variable AgoraData : Type.

Record HistoryItem : Type := mkHistoryItem {
  Hash : TransactionHash;
  ResultXdr : bytes;
  EnvelopeXdr : bytes;
  Cursor : option bytes;
  AgoraDataUrl : option StaticResolver.AgoraDataUrl;
  AgoraDataOf : option AgoraData;
}.

Record GetTransactionResponse : Type := mkGetTransactionResponse {
  state : State;
  Ledger : Z;
  Item : HistoryItem;
}.

Record GetHistoryResponse : Type := mkGetHistoryResponse {
  Items : list HistoryItem;
}.

(** What Horizon answers: a submission, and a transaction record. *)
Record TransactionSuccess : Type := mkTransactionSuccess {
  successHash : string;
  successLedger : Z;
  successResult : string;
}.

Record HorizonTransaction : Type := mkHorizonTransaction {
  txHash : string;
  txLedger : Z;
  txResultXdr : string;
  txEnvelopeXdr : string;
  PT : string;
}.

(** [horizonclient.TransactionRequest]; an [Order] left unset is
    [None], a [Cursor] left unset the empty string. *)
Record TransactionRequest : Type := mkTransactionRequest {
  ForAccount : string;
  IncludeFailed : bool;
  txnOrder : option Ingestion.Order;
  txnCursor : string;
}.

(** [xdr.Transaction], reduced to the hash of its memo (nil when the
    memo is not a hash memo). *)
Record XdrTransaction : Type := mkXdrTransaction {
  MemoHash : option bytes;
}.

(** The [server] struct: the data store, the resolver and the two
    Horizon clients, each by what its one used method answers. *)
Record server : Type := mkServer {
  txStore : bytes → error + AgoraData;
  resolver : bytes → error + StaticResolver.AgoraDataUrl;
  SubmitTransaction : string → error + TransactionSuccess;
  LoadTransaction : string → error + HorizonTransaction;
  Transactions : TransactionRequest → error + list HorizonTransaction;
}.

(** Library functions the server calls: [encoding/hex],
    [encoding/base64] (standard encoding), [xdr.Unmarshal], the memo
    functions of [kin], [err.Error()], and the generated validators.
    [horizonProblem] and [horizonclientProblem] stand for the type
    assertions to [*horizon.Error] and [*horizonclient.Error] followed
    by [Problem.Status]. *)
Variable hexDecodeString : string → error + bytes.
Variable hexEncodeToString : bytes → string.
Variable b64DecodeString : string → error + bytes.
Variable b64EncodeToString : bytes → string.
Variable Unmarshal : bytes → error + XdrTransaction.
Variable IsValidMemoStrict : bytes → bool.
Variable MemoFromXDRString : string → bool → error + bytes.
Variable ForeignKey : bytes → bytes.
Variable ErrorText : error → string.
Variable horizonProblem : error → option Z.
Variable horizonclientProblem : error → option Z.
Variable ValidateSubmitSend : SubmitSendRequest → option error.
Variable ValidateGetTransaction : GetTransactionRequest → option error.
Variable ValidateGetHistory : GetHistoryRequest → option error.

(** [func getBinaryBlobs(hash, result, envelope string)]. *)
Definition getBinaryBlobs (hash result envelope : string)
    : error + bytes * bytes * bytes :=
  match hexDecodeString hash with
  | inl err => inl (Wrap err "failed to decode hash")
  | inr hashBytes =>
      match b64DecodeString result with
      | inl err => inl (Wrap err "failed to decode xdr")
      | inr resultBytes =>
          match b64DecodeString envelope with
          | inl err => inl (Wrap err "failed to decode envelope")
          | inr envelopeBytes => inr (hashBytes, resultBytes, envelopeBytes)
          end
      end
  end.

(** [func getCursor(c string) *transaction.Cursor]; the value of the
    cursor is [[]byte(c)]. *)
Definition getCursor (c : string) : option bytes :=
  if decide (c = "") then None else Some (String.list_byte_of_string c).

(** The item [item] shows the record [tx]: its hash, result and
    envelope are what those of the record decode to, and its cursor is
    the cursor of the record's paging token. *)
Definition decodesTo (tx : HorizonTransaction) (item : HistoryItem) : Prop :=
  hexDecodeString (txHash tx) = inr (hashValue (Hash item))
  ∧ b64DecodeString (txResultXdr tx) = inr (ResultXdr item)
  ∧ b64DecodeString (txEnvelopeXdr tx) = inr (EnvelopeXdr item)
  ∧ Cursor item = getCursor (PT tx).

(** The request passes the checks [SubmitSend] makes before it submits:
    it validates, its XDR parses, and a hash memo is a valid memo. *)
Definition submittable (req : SubmitSendRequest) : Prop :=
  ValidateSubmitSend req = None
  ∧ ∃ tx, Unmarshal (TransactionXdr req) = inr tx
          ∧ ∀ h, MemoHash tx = Some h → IsValidMemoStrict h = true.

(** [func (s *server) SubmitSend(ctx, req)].  The second component is
    the list of envelopes submitted to Horizon. *)
Definition SubmitSend (s : server) (req : SubmitSendRequest)
    (submitted : list string)
    : (Status + SubmitSendResponse) * list string :=
  match ValidateSubmitSend req with
  | Some _ => (inl (mkStatus InvalidArgument ""), submitted)
  | None =>
      match Unmarshal (TransactionXdr req) with
      | inl _ => (inl (mkStatus InvalidArgument "invalid xdr"), submitted)
      | inr tx =>
          if match MemoHash tx with
             | Some h => negb (IsValidMemoStrict h)
             | None => false
             end
          then (inl (mkStatus InvalidArgument "invalid memo"), submitted)
          else
            let envelope := b64EncodeToString (TransactionXdr req) in
            match SubmitTransaction s envelope with
            | inl _ =>
                (inl (mkStatus Internal "failed to submit transaction"),
                 submitted ++ [envelope])
            | inr resp =>
                match hexDecodeString (successHash resp) with
                | inl _ =>
                    (inl (mkStatus Internal "invalid hash encoding from horizon"),
                     submitted ++ [envelope])
                | inr hashBytes =>
                    match b64DecodeString (successResult resp) with
                    | inl _ =>
                        (inl (mkStatus Internal
                                "invalid result encoding from horizon"),
                         submitted ++ [envelope])
                    | inr resultXDR =>
                        (inr (mkSubmitSendResponse (mkTransactionHash hashBytes)
                                (successLedger resp) resultXDR),
                         submitted ++ [envelope])
                    end
                end
            end
      end
  end.

(** The agora part of [GetTransaction]: the URL and the data are added
    to the item when they are found; a missing URL or missing data is no
    failure, any other error is. *)
Definition withAgoraData (s : server) (memo : bytes) (item : HistoryItem)
    : Status + HistoryItem :=
  match
    match resolver s memo with
    | inr url =>
        inr (mkHistoryItem (Hash item) (ResultXdr item) (EnvelopeXdr item)
               (Cursor item) (Some url) (AgoraDataOf item))
    | inl err =>
        if decide (err = StaticResolver.ErrNotFound) then inr item
        else inl (mkStatus Internal "failed to resolve agora memo")
    end
  with
  | inl st => inl st
  | inr item1 =>
      match txStore s (ForeignKey memo) with
      | inr txData =>
          inr (mkHistoryItem (Hash item1) (ResultXdr item1) (EnvelopeXdr item1)
                 (Cursor item1) (AgoraDataUrl item1) (Some txData))
      | inl err =>
          if decide (err = dataErrNotFound) then inr item1
          else inl (mkStatus Internal "failed to retrieve agora data")
      end
  end.

(** [func (s *server) GetTransaction(ctx, req)].  Reading
    [req.TransactionHash.Value] through a nil pointer panics. *)
Definition GetTransaction (s : server) (req : GetTransactionRequest)
    : Fault + (Status + GetTransactionResponse) :=
  match ValidateGetTransaction req with
  | Some _ => inr (inl (mkStatus InvalidArgument ""))
  | None =>
      match reqTransactionHash req with
      | None => inl (Panic "invalid memory address or nil pointer dereference")
      | Some h =>
          match LoadTransaction s (hexEncodeToString (hashValue h)) with
          | inl err =>
              match horizonProblem err with
              | Some st =>
                  if st =? StatusNotFound then inr (inl (mkStatus NotFound ""))
                  else inr (inl (mkStatus Internal (ErrorText err)))
              | None => inr (inl (mkStatus Internal (ErrorText err)))
              end
          | inr tx =>
              match getBinaryBlobs (txHash tx) (txResultXdr tx) (txEnvelopeXdr tx) with
              | inl err => inr (inl (mkStatus Internal (ErrorText err)))
              | inr (_, result, envelope) =>
                  let item :=
                    mkHistoryItem h result envelope (getCursor (PT tx)) None None in
                  match MemoFromXDRString (txHash tx) true with
                  | inl _ =>
                      inr (inr (mkGetTransactionResponse SUCCESS (txLedger tx) item))
                  | inr memo =>
                      match withAgoraData s memo item with
                      | inl st => inr (inl st)
                      | inr item' =>
                          inr (inr (mkGetTransactionResponse SUCCESS
                                      (txLedger tx) item'))
                      end
                  end
              end
          end
      end
  end.

(** The request [GetHistory] sends to Horizon.  Reading
    [req.AccountId.Value] through a nil pointer panics. *)
Definition historyRequest (req : GetHistoryRequest) : Fault + TransactionRequest :=
  match reqAccountId req with
  | None => inl (Panic "invalid memory address or nil pointer dereference")
  | Some account =>
      inr (mkTransactionRequest account false
             match reqDirection req with
             | ASC => Some Ingestion.OrderAsc
             | DESC => Some Ingestion.OrderDesc
             | OtherDirection _ => None
             end
             match reqCursor req with
             | Some c => String.string_of_list_byte c
             | None => ""
             end)
  end.

(** One turn of the loop of [GetHistory]: the item of a record, or the
    status the call returns with. *)
Definition historyItem (s : server) (tx : HorizonTransaction)
    : Status + HistoryItem :=
  match getBinaryBlobs (txHash tx) (txResultXdr tx) (txEnvelopeXdr tx) with
  | inl err => inl (mkStatus Internal (ErrorText err))
  | inr (hash, result, envelope) =>
      let item :=
        mkHistoryItem (mkTransactionHash hash) result envelope
          (getCursor (PT tx)) None None in
      match MemoFromXDRString (txHash tx) true with
      | inl _ => inr item
      | inr memo =>
          match resolver s memo with
          | inl err =>
              if decide (err = StaticResolver.ErrNotFound) then inr item
              else inl (mkStatus Internal "failed to retrieve agora data")
          | inr url =>
              let item1 :=
                mkHistoryItem (Hash item) (ResultXdr item) (EnvelopeXdr item)
                  (Cursor item) (Some url) None in
              match txStore s (ForeignKey memo) with
              | inr txData =>
                  inr (mkHistoryItem (Hash item1) (ResultXdr item1)
                         (EnvelopeXdr item1) (Cursor item1) (AgoraDataUrl item1)
                         (Some txData))
              | inl err =>
                  if decide (err = dataErrNotFound)
                  then inl (mkStatus Internal "failed to retrieve agora data")
                  else inr item1
              end
          end
      end
  end.

(** The loop of [GetHistory] over the records: it returns at the first
    record that fails. *)
Fixpoint historyItems (s : server) (txs : list HorizonTransaction)
    : Status + list HistoryItem :=
  match txs with
  | [] => inr []
  | tx :: rest =>
      match historyItem s tx with
      | inl st => inl st
      | inr item =>
          match historyItems s rest with
          | inl st => inl st
          | inr items => inr (item :: items)
          end
      end
  end.

(** [func (s *server) GetHistory(ctx, req)]. *)
Definition GetHistory (s : server) (req : GetHistoryRequest)
    : Fault + (Status + GetHistoryResponse) :=
  match ValidateGetHistory req with
  | Some _ => inr (inl (mkStatus InvalidArgument ""))
  | None =>
      match historyRequest req with
      | inl flt => inl flt
      | inr txnReq =>
          match Transactions s txnReq with
          | inl err =>
              match horizonclientProblem err with
              | Some st =>
                  if st =? StatusNotFound then inr (inl (mkStatus NotFound ""))
                  else inr (inl (mkStatus Internal "failed to get horizon txns"))
              | None => inr (inl (mkStatus Internal "failed to get horizon txns"))
              end
          | inr records =>
              match historyItems s records with
              | inl st => inr (inl st)
              | inr items => inr (inr (mkGetHistoryResponse items))
              end
          end
      end
  end.

End Server.

Arguments mkHistoryItem {AgoraData}.
Arguments Hash {AgoraData}.
Arguments ResultXdr {AgoraData}.
Arguments EnvelopeXdr {AgoraData}.
Arguments Cursor {AgoraData}.
Arguments AgoraDataUrl {AgoraData}.
Arguments AgoraDataOf {AgoraData}.
Arguments mkGetTransactionResponse {AgoraData}.
Arguments state {AgoraData}.
Arguments Ledger {AgoraData}.
Arguments Item {AgoraData}.
Arguments mkGetHistoryResponse {AgoraData}.
Arguments Items {AgoraData}.
Arguments mkServer {AgoraData}.
Arguments txStore {AgoraData}.
Arguments resolver {AgoraData}.
Arguments SubmitTransaction {AgoraData}.
Arguments LoadTransaction {AgoraData}.
Arguments Transactions {AgoraData}.

End TransactionServer.

(** ** More sample values *)

Module MoreExamples.
Import Ingestion Dynamo DynamoWrites Examples TransactionServer.

(** A datastore that takes every put and finds nothing. *)
Definition acceptAll : WriteAPI :=
  mkWriteAPI (λ _, None) (λ _, inr (mkQueryOutput [])).

(** An encoder of cache items that [infoOf] reads back. *)
Definition itemOf (info : bytes) (expiry : Z)
    : error + gmap string AttributeValue :=
  inr {[ "account_info" := AttrB info;
         "expiry" := AttrN (decimal (Z.to_N expiry)) ]}.

(** A stand-in for [base64.URLEncoding.EncodeToString] that is one to
    one: the bytes of the memo as a string. *)
Definition memoText (m : bytes) : string := String.string_of_list_byte m.

(** The value of a hexadecimal digit. *)
Definition hexValue (c : Ascii.ascii) : option N :=
  let n := N_of_ascii c in
  if ((48 <=? n) && (n <=? 57))%N then Some (n - 48)%N
  else if ((97 <=? n) && (n <=? 102))%N then Some (n - 87)%N
  else if ((65 <=? n) && (n <=? 70))%N then Some (n - 55)%N
  else None.

Fixpoint hexPairs (cs : list Ascii.ascii) : option (list N) :=
  match cs with
  | [] => Some []
  | a :: b :: rest =>
      va ← hexValue a;
      vb ← hexValue b;
      tl ← hexPairs rest;
      Some ((va * 16 + vb) :: tl)%N
  | _ => None
  end.

(** A stand-in for [hex.DecodeString]. *)
Definition hexDecode (s : string) : error + bytes :=
  match hexPairs (String.list_ascii_of_string s) with
  | Some ns => inr (map byteOf ns)
  | None => inl (Go.New "encoding/hex: invalid string")
  end.

Definition hexDigit (n : N) : Ascii.ascii :=
  ascii_of_N (if (n <? 10)%N then n + 48 else n + 87)%N.

(** A stand-in for [hex.EncodeToString]. *)
Definition hexEncode (b : bytes) : string :=
  String.string_of_list_ascii
    (flat_map (λ x, [hexDigit (Byte.to_N x / 16); hexDigit (Byte.to_N x mod 16)]) b).

Definition b64char (n : N) : Ascii.ascii :=
  ascii_of_N
    (if (n <? 26)%N then n + 65
     else if (n <? 52)%N then n + 71
     else if (n <? 62)%N then n - 4
     else if (n =? 62)%N then 43 else 47)%N.

Fixpoint encodeGroups (ns : list N) : list Ascii.ascii :=
  match ns with
  | [] => []
  | [a] =>
      [b64char (a / 4); b64char ((a mod 4) * 16); ascii_of_N 61; ascii_of_N 61]%N
  | [a; b] =>
      [b64char (a / 4); b64char ((a mod 4) * 16 + b / 16);
       b64char ((b mod 16) * 4); ascii_of_N 61]%N
  | a :: b :: c :: rest =>
      (b64char (a / 4) :: b64char ((a mod 4) * 16 + b / 16)
       :: b64char ((b mod 16) * 4 + c / 64) :: b64char (c mod 64)
       :: encodeGroups rest)%N
  end.

(** A stand-in for [base64.StdEncoding.EncodeToString]. *)
Definition encodeString (b : bytes) : string :=
  String.string_of_list_ascii (encodeGroups (map Byte.to_N b)).

(** A stand-in for [err.Error()]. *)
Fixpoint errorText (err : error) : string :=
  match err with
  | Go.New msg => msg
  | Wrap cause msg => String.append msg (String.append ": " (errorText cause))
  | Sentinel pkg name => String.append pkg (String.append "." name)
  end.

(** Horizon's error for a missing resource carries the status 404. *)
Definition missing : error := Go.New "Resource Missing".

Definition problemOf (err : error) : option Z :=
  if decide (err = missing) then Some 404 else None.

(** Stand-ins for [kin.MemoFromXDRString], which here takes the hash
    ["01ff"] for a memo, and for [Memo.ForeignKey]. *)
Definition memoOf (h : string) (strict : bool) : error + bytes :=
  if decide (h = "01ff") then inr [Byte.x01]
  else inl (Go.New "not an agora memo").

Definition foreignKey (m : bytes) : bytes := m.

(** Two records of Horizon: a plain one and one with a memo. *)
Definition plainTx : TransactionServer.HorizonTransaction :=
  TransactionServer.mkHorizonTransaction "00ff" 7 "AAAA" "AAEC" "30064771072".

Definition memoTx : TransactionServer.HorizonTransaction :=
  TransactionServer.mkHorizonTransaction "01ff" 8 "AAAB" "AwQF" "34359738368".

(** A record whose result is not base64. *)
Definition badTx : TransactionServer.HorizonTransaction :=
  TransactionServer.mkHorizonTransaction "00ff" 9 "!!!!" "AAEC" "38654705664".

(** A server over a Horizon that holds [plainTx] and [memoTx] under
    their hashes and lists [records], with a resolver that knows every
    memo and the given store. *)
Definition serverWith (store : bytes → error + bytes)
    (records : list TransactionServer.HorizonTransaction)
    : TransactionServer.server bytes :=
  TransactionServer.mkServer
    store
    (λ _, inr (StaticResolver.mkAgoraDataUrl "https://test.kin.org/agora/resolve/AQ=="))
    (λ _, inr (TransactionServer.mkTransactionSuccess "00ff" 7 "AAAA"))
    (λ h, if decide (h = "00ff") then inr plainTx
          else if decide (h = "01ff") then inr memoTx
          else inl missing)
    (λ _, inr records).

Definition noData : bytes → error + bytes :=
  λ _, inl TransactionServer.dataErrNotFound.

Definition storeDown : bytes → error + bytes :=
  λ _, inl (Go.New "store unavailable").

Definition historyOf (account : string) : TransactionServer.GetHistoryRequest :=
  TransactionServer.mkGetHistoryRequest (Some account) TransactionServer.ASC None.

Definition lookupOf (h : bytes) : TransactionServer.GetTransactionRequest :=
  TransactionServer.mkGetTransactionRequest
    (Some (TransactionServer.mkTransactionHash h)).

(** The server functions over the stand-ins, with validators that
    accept every request. *)
Definition getTransaction :=
  TransactionServer.GetTransaction bytes hexDecode hexEncode decodeString
    memoOf foreignKey errorText problemOf (λ _, None).

Definition getHistory :=
  TransactionServer.GetHistory bytes hexDecode decodeString memoOf foreignKey
    errorText problemOf (λ _, None).

End MoreExamples.

(** * Properties *)

(** ** Event streams *)

Module StreamFacts.
Import Stream.

Ltac run_stream :=
  unfold notifyData, notify, close, receive, Lock, Unlock, get_closed,
    set_closed, on_chan, try_send, try_recv, close_chan, enqueue, shut,
    mbind, mret, run_bind, run_ret;
  simpl.

Lemma notify_when_closed e r m s :
  mu s = false → closed s = true →
  notify e r m s = inr (Some StreamClosed, s).
Proof.
  destruct s as [l c ch]; simpl; intros -> ->. reflexivity.
Qed.

Lemma notify_when_room e r m s :
  mu s = false → closed s = false → chClosed (streamCh s) = false →
  (length (buf (streamCh s)) < cap (streamCh s))%nat →
  notify e r m s = inr (None, enqueue (mkEventData e r m) s).
Proof.
  destruct s as [l c [b k cc]]; simpl; intros -> -> -> Hlt.
  run_stream.
  destruct (Nat.ltb_spec (length b) k) as [_|Hge]; [reflexivity | lia].
Qed.

Lemma notify_when_full e r m s :
  mu s = false → closed s = false → chClosed (streamCh s) = false →
  (cap (streamCh s) ≤ length (buf (streamCh s)))%nat →
  notify e r m s = inr (Some StreamFull, shut s).
Proof.
  destruct s as [l c [b k cc]]; simpl; intros -> -> -> Hge.
  run_stream.
  destruct (Nat.ltb_spec (length b) k) as [Hlt|_]; [lia | reflexivity].
Qed.

Lemma close_when_open s :
  mu s = false → closed s = false → chClosed (streamCh s) = false →
  close s = inr (tt, shut s).
Proof.
  destruct s as [l c [b k cc]]; simpl; intros -> -> ->. reflexivity.
Qed.

Lemma close_when_closed s :
  mu s = false → closed s = true → close s = inr (tt, s).
Proof.
  destruct s as [l c ch]; simpl; intros -> ->. reflexivity.
Qed.

Lemma new_stream_inv n s : newEventStream n = inr s → stream_inv s.
Proof.
  unfold newEventStream, make_chan.
  destruct (n <? 0); [discriminate|].
  intros [= <-]. repeat split; simpl. lia.
Qed.

Lemma notify_inv d res s s' :
  stream_inv s → notifyData d s = inr (res, s') → stream_inv s'.
Proof.
  intros (Hmu & Hcl & Hlen) Hrun. unfold notifyData in Hrun.
  destruct (closed s) eqn:Hc.
  - rewrite notify_when_closed in Hrun by done.
    injection Hrun as <- <-. repeat split; congruence.
  - destruct (Nat.lt_ge_cases (length (buf (streamCh s))) (cap (streamCh s)))
      as [Hlt|Hge].
    + rewrite notify_when_room in Hrun by done.
      injection Hrun as <- <-. repeat split; simpl; try congruence.
      rewrite length_app; simpl; lia.
    + rewrite notify_when_full in Hrun by done.
      injection Hrun as <- <-. by repeat split.
Qed.

Lemma close_inv s s' : stream_inv s → close s = inr (tt, s') → stream_inv s'.
Proof.
  intros (Hmu & Hcl & Hlen) Hrun.
  destruct (closed s) eqn:Hc.
  - rewrite close_when_closed in Hrun by done.
    injection Hrun as <-. repeat split; congruence.
  - rewrite close_when_open in Hrun by done.
    injection Hrun as <-. by repeat split.
Qed.

Lemma receive_inv v s s' :
  stream_inv s → receive s = inr (v, s') → stream_inv s'.
Proof.
  destruct s as [l c [b k cc]]. intros (Hmu & Hcl & Hlen); simpl in *.
  run_stream. destruct b as [|x b]; intros [= <- <-]; repeat split; simpl in *;
    try done. lia.
Qed.

Create HintDb stream discriminated.
#[local] Hint Resolve new_stream_inv notify_inv close_inv receive_inv : stream.

Lemma reachable_inv s : reachable s → stream_inv s.
Proof. induction 1; eauto with stream. Qed.

Lemma notifyData_eta d : mkEventData (e d) (r d) (m d) = d.
Proof. by destruct d. Qed.

Lemma notifyAll_app ds1 ds2 s :
  notifyAll (ds1 ++ ds2) s =
  match notifyAll ds1 s with
  | inl flt => inl flt
  | inr (rs1, s1) =>
      match notifyAll ds2 s1 with
      | inl flt => inl flt
      | inr (rs2, s2) => inr (rs1 ++ rs2, s2)
      end
  end.
Proof.
  revert s. induction ds1 as [|d ds1 IH]; intros s; simpl.
  - unfold mret, run_ret. by destruct (notifyAll ds2 s) as [|[??]].
  - unfold mbind, run_bind at 1 3.
    destruct (notifyData d s) as [flt|[res s']]; [done|].
    unfold mbind, run_bind at 1 2. rewrite IH.
    destruct (notifyAll ds1 s') as [flt|[rs1 s1]]; [done|].
    unfold mret, run_ret.
    by destruct (notifyAll ds2 s1) as [|[??]].
Qed.

Lemma notifyAll_room ds : ∀ s,
  mu s = false → closed s = false → chClosed (streamCh s) = false →
  (length (buf (streamCh s)) + length ds ≤ cap (streamCh s))%nat →
  notifyAll ds s =
  inr (repeat None (length ds),
       mkEventStream false false
         (mkChan (buf (streamCh s) ++ ds) (cap (streamCh s)) false)).
Proof.
  induction ds as [|d ds IH]; intros s Hmu Hc Hcc Hlen; simpl in *.
  - destruct s as [l c [b k cc]]; simpl in *; subst.
    by rewrite app_nil_r.
  - unfold mbind, run_bind at 1. unfold notifyData.
    rewrite notify_when_room; [|done..|lia].
    unfold mbind, run_bind at 1. rewrite IH; simpl; try done.
    + rewrite notifyData_eta, <- app_assoc. reflexivity.
    + rewrite length_app; simpl; lia.
Qed.

Lemma notifyAll_closed ds s :
  mu s = false → closed s = true →
  notifyAll ds s = inr (repeat (Some StreamClosed) (length ds), s).
Proof.
  intros Hmu Hc. induction ds as [|d ds IH]; simpl; [done|].
  unfold mbind, run_bind at 1. unfold notifyData.
  rewrite notify_when_closed; [|done..].
  unfold mbind, run_bind at 1. by rewrite IH.
Qed.

(** C6. On a stream whose [closed] flag is set, [notify] fails with the
    StreamClosed error and does nothing: the stream afterwards, and so
    its queue and its flag, is the stream before the call. *)
Theorem notify_closed_noop e r m s :
  reachable s → closed s = true →
  ∃ s', notify e r m s = inr (Some StreamClosed, s')
        ∧ buf (streamCh s') = buf (streamCh s)
        ∧ closed s' = closed s
        ∧ s' = s.
Proof.
  intros Hs Hc. destruct (reachable_inv s Hs) as (Hmu & _ & _).
  exists s. by rewrite notify_when_closed.
Qed.

(** C8. On an open stream with room in its queue, [notify] returns nil
    and only appends the event at the tail: the flag stays false, the
    events queued before keep their places, and nothing else changes. *)
Theorem notify_open_appends e r m s :
  reachable s → closed s = false →
  (length (buf (streamCh s)) < cap (streamCh s))%nat →
  ∃ s', notify e r m s = inr (None, s')
        ∧ buf (streamCh s') = buf (streamCh s) ++ [mkEventData e r m]
        ∧ closed s' = false
        ∧ s' = enqueue (mkEventData e r m) s.
Proof.
  intros Hs Hc Hlt. destruct (reachable_inv s Hs) as (Hmu & Hcc & _).
  exists (enqueue (mkEventData e r m) s).
  rewrite notify_when_room; try done; congruence.
Qed.

(** C7. [close] is idempotent: a call never faults; it leaves the stream
    flagged closed with its channel closed and its queue untouched; on a
    stream already closed it changes nothing; and closing twice gives
    the state of closing once. *)
Theorem close_idempotent s :
  reachable s →
  ∃ s1, close s = inr (tt, s1)
        ∧ closed s1 = true
        ∧ chClosed (streamCh s1) = true
        ∧ buf (streamCh s1) = buf (streamCh s)
        ∧ (closed s = true → s1 = s)
        ∧ close s1 = inr (tt, s1)
        ∧ (close;; close) s = close s.
Proof.
  intros Hs. destruct (reachable_inv s Hs) as (Hmu & Hcc & _).
  destruct (closed s) eqn:Hc.
  - exists s. rewrite close_when_closed; [|done..].
    repeat split; try done.
    unfold mbind, run_bind. by rewrite !close_when_closed.
  - exists (shut s). rewrite close_when_open; [|done..].
    repeat split; try done.
    + by rewrite close_when_closed.
    + unfold mbind, run_bind. rewrite close_when_open; [|done..].
      by rewrite close_when_closed.
Qed.

(** C2. A stream made with capacity [K] accepts [K] notifications that
    nobody consumes; the next one fails with StreamFull and closes the
    stream; every later one fails with StreamClosed. *)
Theorem notify_overflow_closes K s0 ds d later :
  newEventStream K = inr s0 → length ds = Z.to_nat K →
  ∃ s1 s2,
    notifyAll ds s0 = inr (repeat None (length ds), s1)
    ∧ buf (streamCh s1) = ds ∧ closed s1 = false
    ∧ notifyData d s1 = inr (Some StreamFull, s2)
    ∧ closed s2 = true ∧ chClosed (streamCh s2) = true
    ∧ notifyAll later s2 = inr (repeat (Some StreamClosed) (length later), s2)
    ∧ notifyAll (ds ++ d :: later) s0 =
        inr (repeat None (length ds) ++ Some StreamFull
               :: repeat (Some StreamClosed) (length later), s2).
Proof.
  unfold newEventStream, make_chan.
  destruct (K <? 0); [discriminate|]. intros [= <-] Hlen.
  set (s1 := mkEventStream false false (mkChan ds (Z.to_nat K) false)).
  assert (H1 : notifyAll ds (mkEventStream false false (mkChan [] (Z.to_nat K) false))
               = inr (repeat None (length ds), s1)).
  { rewrite notifyAll_room; simpl; try done. lia. }
  assert (H2 : notifyData d s1 = inr (Some StreamFull, shut s1)).
  { unfold notifyData. rewrite notify_when_full; simpl; try done. lia. }
  assert (H3 : notifyAll later (shut s1)
               = inr (repeat (Some StreamClosed) (length later), shut s1)).
  { by apply notifyAll_closed. }
  exists s1, (shut s1). repeat split; try done.
  rewrite notifyAll_app, H1. simpl.
  unfold mbind, run_bind at 1. rewrite H2.
  unfold mbind, run_bind at 1. by rewrite H3.
Qed.

Import Examples.

Lemma fresh_reachable n : reachable (fresh n).
Proof.
  apply (reach_new (Z.of_nat n)). unfold newEventStream, make_chan.
  destruct (Z.ltb_spec (Z.of_nat n) 0) as [Hneg|_]; [lia|].
  unfold fresh. by rewrite Nat2Z.id.
Qed.

Lemma notify_closed_noop_witness :
  reachable (shut (fresh 5)) ∧ closed (shut (fresh 5)) = true
  ∧ ∃ s', notify payment12 success meta12 (shut (fresh 5))
          = inr (Some StreamClosed, s')
          ∧ buf (streamCh s') = buf (streamCh (shut (fresh 5)))
          ∧ closed s' = closed (shut (fresh 5))
          ∧ s' = shut (fresh 5).
Proof.
  assert (Hs : reachable (shut (fresh 5))).
  { apply (reach_close (fresh 5)); [|reflexivity].
    apply (reach_new 5). reflexivity. }
  split; [exact Hs|]. split; [reflexivity|].
  apply (notify_closed_noop payment12 success meta12 (shut (fresh 5)) Hs).
  reflexivity.
Defined.

Lemma notify_open_appends_witness :
  reachable (fresh 5) ∧ closed (fresh 5) = false
  ∧ (length (buf (streamCh (fresh 5))) < cap (streamCh (fresh 5)))%nat
  ∧ ∃ s', notify payment12 success meta12 (fresh 5) = inr (None, s')
          ∧ buf (streamCh s') = buf (streamCh (fresh 5)) ++ [event12]
          ∧ closed s' = false
          ∧ s' = enqueue event12 (fresh 5).
Proof.
  assert (Hs : reachable (fresh 5)) by (apply (reach_new 5); reflexivity).
  split; [exact Hs|]. split; [reflexivity|].
  split; [simpl; lia|].
  apply (notify_open_appends payment12 success meta12 (fresh 5) Hs).
  - reflexivity.
  - simpl; lia.
Defined.

Lemma close_idempotent_witness :
  reachable (fresh 5)
  ∧ ∃ s1, close (fresh 5) = inr (tt, s1)
          ∧ closed s1 = true
          ∧ chClosed (streamCh s1) = true
          ∧ buf (streamCh s1) = buf (streamCh (fresh 5))
          ∧ (closed (fresh 5) = true → s1 = fresh 5)
          ∧ close s1 = inr (tt, s1)
          ∧ (close;; close) (fresh 5) = close (fresh 5).
Proof.
  assert (Hs : reachable (fresh 5)) by (apply (reach_new 5); reflexivity).
  split; [exact Hs|].
  apply (close_idempotent (fresh 5) Hs).
Defined.

Lemma notify_overflow_closes_witness :
  newEventStream 2 = inr (fresh 2)
  ∧ length [event12; event23] = Z.to_nat 2
  ∧ ∃ s1 s2,
      notifyAll [event12; event23] (fresh 2) = inr ([None; None], s1)
      ∧ buf (streamCh s1) = [event12; event23] ∧ closed s1 = false
      ∧ notifyData event12 s1 = inr (Some StreamFull, s2)
      ∧ closed s2 = true ∧ chClosed (streamCh s2) = true
      ∧ notifyAll [event23; event12] s2
        = inr ([Some StreamClosed; Some StreamClosed], s2)
      ∧ notifyAll ([event12; event23] ++ event12 :: [event23; event12]) (fresh 2)
        = inr ([None; None] ++ Some StreamFull
                 :: [Some StreamClosed; Some StreamClosed], s2).
Proof.
  split; [reflexivity|]. split; [reflexivity|].
  apply (notify_overflow_closes 2 (fresh 2) [event12; event23] event12
           [event23; event12]); reflexivity.
Defined.

End StreamFacts.

(** ** The account notifier *)

Module NotifierFacts.
Import Stream StreamFacts Notifier.

Lemma notifyData_total d s :
  reachable s → ∃ res s', notifyData d s = inr (res, s') ∧ reachable s'.
Proof.
  intros Hs. destruct (reachable_inv s Hs) as (Hmu & Hcc & Hlen).
  assert (∃ res s', notifyData d s = inr (res, s')) as (res & s' & Hrun).
  { unfold notifyData. destruct (closed s) eqn:Hc.
    - rewrite notify_when_closed by done. eauto.
    - destruct (Nat.lt_ge_cases (length (buf (streamCh s))) (cap (streamCh s))).
      + rewrite notify_when_room by done. eauto.
      + rewrite notify_when_full by done. eauto. }
  exists res, s'. split; [done|]. by eapply reach_notify.
Qed.

Lemma deliver_spec ev ls : ∀ h : heap,
  NoDup ls →
  (∀ l, l ∈ ls → ∃ s, h !! l = Some s ∧ reachable s) →
  ∃ tr h',
    deliver ev ls h = inr (tr, h')
    ∧ tr.*1 = ls
    ∧ (∀ l, l ∉ ls → h' !! l = h !! l)
    ∧ (∀ l s, l ∈ ls → h !! l = Some s →
         ∃ res s', notifyData ev s = inr (res, s')
                   ∧ h' !! l = Some s' ∧ (l, res) ∈ tr).
Proof.
  induction ls as [|l ls IH]; intros h Hnd Hok.
  - exists [], h. do 3 (split; [done|]). intros l s Hl. set_solver.
  - apply NoDup_cons in Hnd as [Hnotin Hnd].
    destruct (Hok l) as (s & Hs & Hr); [set_solver|].
    destruct (notifyData_total ev s Hr) as (res & s' & Hn & Hr').
    destruct (IH (<[l:=s']> h)) as (tr & h' & Hrun & Hfst & Hframe & Hhit);
      [done| |].
    { intros l' Hl'. rewrite lookup_insert_ne by set_solver.
      apply Hok. set_solver. }
    exists ((l, res) :: tr), h'. split; [|split; [|split]].
    + simpl. unfold mbind, run_bind at 1. unfold notifyRef. rewrite Hs, Hn.
      unfold mbind, run_bind at 1. by rewrite Hrun.
    + rewrite fmap_cons. by rewrite Hfst.
    + intros l' Hl'. rewrite Hframe by set_solver.
      apply lookup_insert_ne. set_solver.
    + intros l' s0 Hl' Hs0. destruct (decide (l' = l)) as [->|Hne].
      * assert (s0 = s) as -> by congruence.
        exists res, s'. repeat split; [done| |set_solver].
        rewrite Hframe by done. apply lookup_insert_eq.
      * destruct (Hhit l' s0) as (res0 & s0' & ? & ? & ?); [set_solver| |].
        { by rewrite lookup_insert_ne. }
        exists res0, s0'. repeat split; [done..|set_solver].
Qed.

Lemma elem_of_affectedAccounts env meta a :
  a ∈ affectedAccounts env meta ↔
    (∃ op, op ∈ xdr.txOperations env ∧ sourceOf env op = a)
    ∨ (∃ om c, om ∈ xdr.operationsMeta meta ∧ c ∈ xdr.changes om
               ∧ xdr.lecAccount c = a).
Proof.
  unfold affectedAccounts, changedAccounts.
  rewrite elem_of_list_to_set, elem_of_app, !list_elem_of_In.
  rewrite in_map_iff, in_flat_map.
  split; intros [H|H]; [left|right|left|right].
  - destruct H as (op & ? & ?). exists op. by rewrite list_elem_of_In.
  - destruct H as (om & ? & Hc). apply in_map_iff in Hc as (c & ? & ?).
    exists om, c. by rewrite !list_elem_of_In.
  - destruct H as (op & ? & ?). exists op. by rewrite <- list_elem_of_In.
  - destruct H as (om & c & ? & ? & ?). exists om.
    rewrite <- list_elem_of_In. split; [done|].
    apply in_map_iff. exists c. by rewrite <- list_elem_of_In.
Qed.

(** C3, as the design has it.  [OnTransaction] never faults and calls
    [notify] exactly once on each stream registered under an affected
    account and on no other stream, where an account is affected when it
    is the effective source of an operation (the explicit source if set,
    else the top-level source) or has a ledger entry changed in the
    metadata.  Of the streams it reaches, an open stream with room has
    the event appended once, an open stream that is full receives
    nothing and is closed, and a closed stream is left as it is; every
    other stream is untouched.  A payment from [A] to [B] submitted
    through the channel account [C] reaches the subscribers of [A], and
    those of [B] and [C] when the metadata records their ledger
    entries. *)
Theorem OnTransaction_fanout (n : registry) e r m (h : heap) :
  heap_ok n h →
  (∀ a, a ∈ affectedAccounts e m ↔
     (∃ op, op ∈ xdr.txOperations e
            ∧ default (xdr.txSourceAccount e) (xdr.opSourceAccount op) = a)
     ∨ (∃ om c, om ∈ xdr.operationsMeta m ∧ c ∈ xdr.changes om
                ∧ xdr.lecAccount c = a))
  ∧ (∃ tr h',
       OnTransaction n e r m h = inr (tr, h')
       ∧ NoDup tr.*1
       ∧ (∀ l, l ∈ tr.*1 ↔ ∃ a, a ∈ affectedAccounts e m ∧ l ∈ streamsOf n a)
       ∧ (∀ l s, l ∈ tr.*1 → h !! l = Some s →
            ∃ res s', notify e r m s = inr (res, s')
                      ∧ h' !! l = Some s' ∧ (l, res) ∈ tr)
       ∧ (∀ l s, l ∈ tr.*1 → h !! l = Some s → closed s = false →
            (length (buf (streamCh s)) < cap (streamCh s))%nat →
            h' !! l = Some (enqueue (mkEventData e r m) s) ∧ (l, None) ∈ tr)
       ∧ (∀ l s, l ∈ tr.*1 → h !! l = Some s → closed s = false →
            (cap (streamCh s) ≤ length (buf (streamCh s)))%nat →
            h' !! l = Some (shut s) ∧ (l, Some StreamFull) ∈ tr)
       ∧ (∀ l s, l ∈ tr.*1 → h !! l = Some s → closed s = true →
            h' !! l = Some s ∧ (l, Some StreamClosed) ∈ tr)
       ∧ (∀ l, l ∉ tr.*1 → h' !! l = h !! l)
       ∧ (∀ A B C amount,
            e = xdr.mkEnvelope C
                  [xdr.mkOperation (Some A) (xdr.Payment B amount)] →
            (∀ l, l ∈ streamsOf n A → l ∈ tr.*1)
            ∧ (B ∈ changedAccounts m → C ∈ changedAccounts m →
               ∀ l, l ∈ streamsOf n A ∪ streamsOf n B ∪ streamsOf n C →
                    l ∈ tr.*1))).
Proof.
  intros Hok. split.
  - intros a. apply elem_of_affectedAccounts.
  - set (ls := elements (subscribers n (affectedAccounts e m))).
    assert (Hmem : ∀ l, l ∈ ls ↔
              ∃ a, a ∈ affectedAccounts e m ∧ l ∈ streamsOf n a).
    { intros l. unfold ls, subscribers.
      by rewrite elem_of_elements, elem_of_set_bind. }
    destruct (deliver_spec (mkEventData e r m) ls h)
      as (tr & h' & Hrun & Hfst & Hframe & Hhit).
    { apply NoDup_elements. }
    { intros l Hl. apply Hmem in Hl as (a & _ & Hl). by eapply Hok. }
    exists tr, h'. rewrite Hfst.
    assert (Hinv : ∀ l s, l ∈ ls → h !! l = Some s →
              mu s = false ∧ closed s = chClosed (streamCh s)).
    { intros l s Hl Hs. apply Hmem in Hl as (a & _ & Hl).
      destruct (Hok a l Hl) as (s0 & Hs0 & Hreach).
      assert (s0 = s) as -> by congruence.
      by destruct (reachable_inv s Hreach) as (? & ? & _). }
    split; [done|]. split; [apply NoDup_elements|]. split; [done|].
    split; [|split; [|split; [|split; [|split; [done|]]]]].
    + intros l s Hl Hs. by apply Hhit.
    + intros l s Hl Hs Hc Hroom.
      destruct (Hhit l s Hl Hs) as (res & s' & Hn & Hs' & Hin).
      destruct (Hinv l s Hl Hs) as [Hmu Hcc].
      unfold notifyData in Hn; simpl in Hn.
      rewrite notify_when_room in Hn by (done || congruence).
      by injection Hn as <- <-.
    + intros l s Hl Hs Hc Hfull.
      destruct (Hhit l s Hl Hs) as (res & s' & Hn & Hs' & Hin).
      destruct (Hinv l s Hl Hs) as [Hmu Hcc].
      unfold notifyData in Hn; simpl in Hn.
      rewrite notify_when_full in Hn by (done || congruence).
      by injection Hn as <- <-.
    + intros l s Hl Hs Hc.
      destruct (Hhit l s Hl Hs) as (res & s' & Hn & Hs' & Hin).
      destruct (Hinv l s Hl Hs) as [Hmu Hcc].
      unfold notifyData in Hn; simpl in Hn.
      rewrite notify_when_closed in Hn by done.
      by injection Hn as <- <-.
    + intros A B C amount ->. split.
      * intros l Hl. apply Hmem. exists A. split; [|done].
        unfold affectedAccounts. simpl. set_solver.
      * intros HB HC l Hl. apply Hmem.
        unfold affectedAccounts. simpl.
        apply elem_of_union in Hl as [[Hl|Hl]%elem_of_union|Hl];
          [exists A|exists B|exists C]; (split; [|done]); set_solver.
Qed.

Import Examples.

Lemma streamsOf_AddStream a l (n : registry) a' :
  streamsOf (AddStream a l n) a'
  = if decide (a = a') then {[l]} ∪ streamsOf n a else streamsOf n a'.
Proof.
  unfold streamsOf, AddStream. rewrite lookup_insert.
  by case_decide; subst.
Qed.

Lemma heap_ok_new (h : heap) : heap_ok NewAccountNotifier h.
Proof.
  intros a l. unfold streamsOf, NewAccountNotifier.
  rewrite lookup_empty. simpl. set_solver.
Qed.

(** Registrations add up: the streams already registered stay. *)
Lemma heap_ok_AddStream (n : registry) (h : heap) a l s :
  heap_ok n h → h !! l = Some s → reachable s → heap_ok (AddStream a l n) h.
Proof.
  intros Hok Hl Hs a' l'. rewrite streamsOf_AddStream.
  case_decide; [|apply Hok].
  intros [->%elem_of_singleton|Hin]%elem_of_union; [eauto|by eapply Hok].
Qed.

Lemma threeAccounts_ok : heap_ok threeAccounts threeStreams.
Proof.
  unfold threeAccounts.
  do 3 (apply (heap_ok_AddStream _ _ _ _ (fresh 5));
        [|reflexivity|apply fresh_reachable]).
  apply heap_ok_new.
Qed.

(** [TestAccountNotifier_PaymentOperation]: the payment from 1 to 2
    reaches the streams of 1 and 2 and not that of 3; the payment from 2
    to 3 through the channel 1 then reaches all three. *)
Example payments_reach_subscribers :
  ∃ tr1 h1 tr2 h2,
    OnTransaction threeAccounts payment12 success meta12 threeStreams
    = inr (tr1, h1)
    ∧ queueLengths h1 = [Some 1; Some 1; Some 0]%nat
    ∧ OnTransaction threeAccounts payment23 success meta23 h1 = inr (tr2, h2)
    ∧ queueLengths h2 = [Some 2; Some 2; Some 1]%nat.
Proof.
  eexists _, _, _, _. split; [vm_compute; reflexivity|].
  split; [vm_compute; reflexivity|].
  split; [vm_compute; reflexivity|]. vm_compute; reflexivity.
Qed.

Lemma OnTransaction_fanout_witness :
  heap_ok threeAccounts threeStreams
  ∧ ∃ tr h',
      OnTransaction threeAccounts payment23 success meta23 threeStreams
      = inr (tr, h')
      ∧ NoDup tr.*1
      ∧ (∀ l, l ∈ tr.*1 ↔
           ∃ a, a ∈ affectedAccounts payment23 meta23
                ∧ l ∈ streamsOf threeAccounts a)
      ∧ h' !! 3%nat = Some (enqueue event23 (fresh 5)).
Proof.
  split; [apply threeAccounts_ok|].
  destruct (OnTransaction_fanout threeAccounts payment23 success meta23
              threeStreams threeAccounts_ok)
    as (_ & tr & h' & Hrun & Hnd & Hmem & _ & Hroom & _).
  exists tr, h'. split; [exact Hrun|]. split; [exact Hnd|].
  split; [exact Hmem|].
  apply (Hroom 3%nat (fresh 5)); [|reflexivity|reflexivity|simpl; lia].
  apply Hmem. exists acc3. split; [vm_compute; reflexivity|].
  unfold threeAccounts. rewrite streamsOf_AddStream.
  rewrite decide_True by reflexivity. apply elem_of_union_l.
  by apply elem_of_singleton.
Defined.

(** C3 as worded fails in two places.  A subscriber of the affected
    account 1 whose stream is open and full is handed nothing: its queue
    is as before and the stream is closed.  And the payment from 2 to 3
    through the channel 1, with a metadata that records no ledger entry,
    reaches the stream of 2 only: those of 3 and 1, open and with room,
    stay empty. *)
Lemma OnTransaction_misses_streams :
  (acc1 ∈ affectedAccounts payment12 meta12
   ∧ streamsOf oneAccount acc1 = {[ 1%nat ]}
   ∧ closed fullStream = false
   ∧ ∃ tr h',
       OnTransaction oneAccount payment12 success meta12 slowSubscriber
       = inr (tr, h')
       ∧ tr = [(1%nat, Some StreamFull)]
       ∧ h' !! 1%nat = Some (shut fullStream)
       ∧ buf (streamCh (shut fullStream)) = [event23]
       ∧ event12 ∉ buf (streamCh (shut fullStream)))
  ∧ (payment23
     = xdr.mkEnvelope acc1 [xdr.mkOperation (Some acc2) (xdr.Payment acc3 10)]
     ∧ ∃ tr h',
         OnTransaction threeAccounts payment23 success noChanges threeStreams
         = inr (tr, h')
         ∧ tr = [(2%nat, None)]
         ∧ queueLengths h' = [Some 0; Some 1; Some 0]%nat).
Proof.
  split.
  - split; [vm_compute; reflexivity|]. split; [vm_compute; reflexivity|].
    split; [reflexivity|].
    eexists _, _. split; [vm_compute; reflexivity|].
    split; [reflexivity|]. split; [reflexivity|]. split; [reflexivity|].
    intros Hin. apply elem_of_cons in Hin as [Heq|Hin];
      [discriminate Heq|by apply elem_of_nil in Hin].
  - split; [reflexivity|].
    eexists _, _. split; [vm_compute; reflexivity|].
    split; [reflexivity|]. vm_compute. reflexivity.
Qed.

End NotifierFacts.

(** ** The ledger ingestor *)

Module IngestionFacts.
Import Ingestion.

Lemma parse_decimal n : parseDecimal (decimal n) = Some n.
Proof.
  unfold parseDecimal, decimal. rewrite NilZero.usu.
  - simpl. f_equal. apply DecimalN.Unsigned.of_to.
  - destruct n; [discriminate | apply DecimalPos.Unsigned.to_uint_nonnil].
Qed.

Lemma pagingToken_bits p :
  pagingToken p = (ptrSequence p * 2 ^ 32)%N
  ∧ N.shiftr (pagingToken p) 32 = ptrSequence p
  ∧ N.land (pagingToken p) (N.ones 32) = 0%N.
Proof.
  unfold pagingToken. split; [apply N.shiftl_mul_pow2|]. split.
  - by rewrite N.shiftr_shiftl_l, N.sub_diag, N.shiftl_0_r.
  - rewrite N.land_ones, N.shiftl_mul_pow2. apply N.Div0.mod_mul.
Qed.

Section Facts.

Variable fingerprint : Ledger → list Entry → bytes.
Variable i : ingestor.
Variable w : Writer.

Let ingestLedger := ingestLedger fingerprint i w.
Let ingestLedgers := ingestLedgers fingerprint i w.
Let fetch (l : Ledger) := Transactions (client i) (mkTransactionRequest (Sequence l)).

(** What the slot of one ledger says about its task. *)
Lemma ingestLedger_spec parent l :
  (ingestLedger parent l).2 = batchOf i l
  ∧ Parent (ingestLedger parent l).1 = parent
  ∧ (Err (ingestLedger parent l).1 = None ↔
       ∃ page, fetch l = inr page ∧ Write w (toEntry i l <$> Records page) = None)
  ∧ (Err (ingestLedger parent l).1 = None →
       Block (ingestLedger parent l).1
       = Some (fingerprint l (default [] (batchOf i l)))).
Proof.
  unfold ingestLedger, Ingestion.ingestLedger, batchOf, fetch.
  destruct (Transactions (client i) _) as [err|page]; simpl.
  - repeat split; try done. by intros (? & [=] & _).
  - destruct (Write w _) as [err|] eqn:Hw; simpl.
    + repeat split; try done. intros (? & [= <-] & ?). congruence.
    + repeat split; eauto.
Qed.

Lemma ingestLedgers_spec ls : ∀ parent,
  (ingestLedgers parent ls).*2 = batchOf i <$> ls
  ∧ length (ingestLedgers parent ls).*1 = length ls
  ∧ (∀ r0, (ingestLedgers parent ls).*1 !! 0%nat = Some r0 → Parent r0 = parent)
  ∧ (∀ k r0 r1, (ingestLedgers parent ls).*1 !! k = Some r0 →
       (ingestLedgers parent ls).*1 !! S k = Some r1 → Parent r1 = Block r0)
  ∧ (∀ k l res, ls !! k = Some l → (ingestLedgers parent ls).*1 !! k = Some res →
       ∃ p, res = (ingestLedger p l).1).
Proof.
  induction ls as [|l ls IH]; intros parent; [done|].
  destruct (ingestLedger_spec parent l) as (Hb & Hp & _).
  destruct (IH (Block (ingestLedger parent l).1))
    as (Hbs & Hlen & Hhd & Hchain & Hall).
  change (ingestLedgers parent (l :: ls))
    with (ingestLedger parent l
            :: ingestLedgers (Block (ingestLedger parent l).1) ls).
  rewrite !fmap_cons.
  split; [by rewrite Hb, Hbs|]. split; [simpl; by rewrite Hlen|].
  split; [by intros r0 [= <-]|]. split.
  - intros [|k] r0 r1; simpl.
    + intros [= <-] Hr1. by apply Hhd.
    + apply Hchain.
  - intros [|k] l' res; simpl.
    + intros [= <-] [= <-]. eauto.
    + apply Hall.
Qed.

Lemma Ingest_unfold start ledgers :
  StreamLedgers (client i) (ledgerRequest start) = inr ledgers →
  Ingest fingerprint i w start =
  (StreamLedgersCall (ledgerRequest start)
     :: map (λ l, TransactionsCall (mkTransactionRequest (Sequence l))) ledgers,
   inr ((ingestLedgers None ledgers).*1, (ingestLedgers None ledgers).*2)).
Proof. unfold Ingest. by intros ->. Qed.

Lemma batchOf_recordOf l entries :
  batchOf i l = Some entries →
  ∃ page, fetch l = inr page
          ∧ Forall2 (recordOf i l) (Records page) entries
          ∧ length entries = fetchedCount i l.
Proof.
  unfold batchOf, fetchedCount, fetch.
  destruct (Transactions (client i) _) as [|page]; [done|].
  intros [= <-]. exists page. split; [done|].
  split; [|by rewrite length_fmap].
  apply Forall2_fmap_r, Forall_Forall2_diag, Forall_forall. by intros tx _.
Qed.

Lemma length_received ls (order : list (list Entry)) :
  order ≡ₚ omap id (batchOf i <$> ls) →
  length (mjoin order) = sum_list (fetchedCount i <$> ls).
Proof.
  intros ->. induction ls as [|l ls IH]; [done|].
  rewrite !fmap_cons. simpl. rewrite <- IH.
  unfold batchOf at 1, fetchedCount.
  destruct (Transactions (client i) _) as [|page]; simpl; [done|].
  by rewrite length_app, length_fmap.
Qed.

(** C4. The first call of [Ingest] opens the ledger subscription, no
    other call does, and its request asks for ascending order from the
    cursor of the start pointer: ["0"] for the nil pointer, and for a
    pointer of sequence [s] the decimal rendering of [s × 2^32], whose
    high-order bits hold [s] and whose low 32 bits are zero; sequence
    1024 gives ["4398046511104"]. *)
Theorem Ingest_opens_subscription start :
  (∃ rest out,
     Ingest fingerprint i w start
     = (StreamLedgersCall (mkLedgerRequest (cursorFromPointer start) OrderAsc)
          :: rest, out)
     ∧ ∀ req, StreamLedgersCall req ∉ rest)
  ∧ cursorFromPointer None = "0"
  ∧ (∀ v s,
       cursorFromPointer (pointerFromSequence v s) = decimal (s * 2 ^ 32)
       ∧ parseDecimal (cursorFromPointer (pointerFromSequence v s))
         = Some (s * 2 ^ 32)%N
       ∧ N.shiftr (s * 2 ^ 32) 32 = s
       ∧ N.land (s * 2 ^ 32) (N.ones 32) = 0%N)
  ∧ cursorFromPointer (pointerFromSequence KinVersion_KIN3 1024)
    = "4398046511104".
Proof.
  split; [|split; [done|split; [|done]]].
  - unfold Ingest, ledgerRequest.
    destruct (StreamLedgers (client i) _) as [err|ledgers].
    + eexists _, _. split; [done|]. intros req H. by apply elem_of_nil in H.
    + eexists _, _. split; [done|]. intros req H.
      apply list_elem_of_In, in_map_iff in H as (? & [=] & _).
  - intros v s.
    destruct (pagingToken_bits (mkPointer v s)) as (Htok & Hhi & Hlo).
    simpl in *. rewrite <- Htok. rewrite parse_decimal. done.
Qed.

(** C1, as the design has it.  In the results of one run of [Ingest],
    two consecutive results without error are chained: the [Parent] of
    the later one is the [Block] of the earlier one, which is the
    fingerprint of the entries of its ledger; so they all are when no
    result carries an error.  The first result of a run names no parent,
    whatever the start pointer.  The first result's [Err] is nil exactly
    when the first ledger is fetched and written without failure, for a
    cold start as for any other. *)
Theorem Ingest_chain start calls rs batches :
  Ingest fingerprint i w start = (calls, inr (rs, batches)) →
  (∀ k r0 r1, rs !! k = Some r0 → rs !! S k = Some r1 →
     Err r0 = None → Err r1 = None →
     Parent r1 = Block r0 ∧ ∃ b, Block r0 = Some b)
  ∧ ((∀ res, res ∈ rs → Err res = None) →
     ∀ k r0 r1, rs !! k = Some r0 → rs !! S k = Some r1 →
       Parent r1 = Block r0 ∧ ∃ b, Block r0 = Some b)
  ∧ (∀ r0, rs !! 0%nat = Some r0 → Parent r0 = None)
  ∧ (∀ ledgers l0 r0,
       StreamLedgers (client i) (ledgerRequest start) = inr ledgers →
       ledgers !! 0%nat = Some l0 → rs !! 0%nat = Some r0 →
       (Err r0 = None ↔
          ∃ page, fetch l0 = inr page
                  ∧ Write w (toEntry i l0 <$> Records page) = None)).
Proof.
  intros Hrun.
  assert (∃ ledgers, StreamLedgers (client i) (ledgerRequest start) = inr ledgers)
    as [ledgers Hsub].
  { unfold Ingest in Hrun.
    destruct (StreamLedgers (client i) _); [done|eauto]. }
  rewrite (Ingest_unfold _ _ Hsub) in Hrun.
  destruct (ingestLedgers_spec ledgers None)
    as (_ & Hlen & Hhd & Hchain & Hall).
  injection Hrun as <- <- <-.
  assert (Hpair : ∀ k r0 r1,
            (ingestLedgers None ledgers).*1 !! k = Some r0 →
            (ingestLedgers None ledgers).*1 !! S k = Some r1 →
            Err r0 = None → Parent r1 = Block r0 ∧ ∃ b, Block r0 = Some b).
  { intros k r0 r1 Hr0 Hr1 Herr. split; [by eapply Hchain|].
    assert (is_Some (ledgers !! k)) as [l Hl].
    { apply lookup_lt_is_Some. rewrite <- Hlen. by eapply lookup_lt_Some. }
    destruct (Hall k l r0 Hl Hr0) as (p & ->).
    destruct (ingestLedger_spec p l) as (_ & _ & _ & Hblock).
    rewrite (Hblock Herr). eauto. }
  split; [|split; [|split]].
  - intros k r0 r1 Hr0 Hr1 Herr _. by eapply Hpair.
  - intros Hok k r0 r1 Hr0 Hr1. eapply Hpair; [done..|].
    apply Hok. by eapply list_elem_of_lookup_2.
  - apply Hhd.
  - intros ledgers' l0 r0 Hsub' Hl0 Hr0.
    assert (ledgers' = ledgers) as -> by congruence.
    destruct (Hall 0%nat l0 r0 Hl0 Hr0) as (p & ->).
    by destruct (ingestLedger_spec p l0) as (_ & _ & Herr & _).
Qed.

(** C5, as the design has it.  In every run the writer receives, in
    whatever order the ledgers' tasks finish, the batches of the ledgers
    whose page was fetched, and nothing for a ledger whose fetch failed:
    one entry per fetched transaction, so exactly [t1 + ... + tn]
    entries when the pages fetched for the ledgers contain [t1], ...,
    [tn] transactions.  Every entry received is tagged with the
    configured version and the sequence of its ledger and carries
    exactly the envelope and the result of a transaction of that
    ledger's page, and every transaction of a fetched page has its
    entry. *)
Theorem Ingest_received start ledgers :
  StreamLedgers (client i) (ledgerRequest start) = inr ledgers →
  ∃ calls rs batches,
    Ingest fingerprint i w start = (calls, inr (rs, batches))
    ∧ (∃ received, writerReceives batches received)
    ∧ ∀ received, writerReceives batches received →
        length received = sum_list (fetchedCount i <$> ledgers)
        ∧ (∀ ts,
             Forall2 (λ l t, ∃ page, fetch l = inr page
                                     ∧ length (Records page) = t) ledgers ts →
             length received = sum_list ts)
        ∧ (∀ e, e ∈ received →
             ∃ l page tx, l ∈ ledgers ∧ fetch l = inr page
                          ∧ tx ∈ Records page ∧ recordOf i l tx e)
        ∧ (∀ l page tx, l ∈ ledgers → fetch l = inr page → tx ∈ Records page →
             ∃ e, e ∈ received ∧ recordOf i l tx e).
Proof.
  intros Hsub. rewrite (Ingest_unfold _ _ Hsub).
  destruct (ingestLedgers_spec ledgers None) as (Hbs & _).
  eexists _, _, _. split; [done|]. rewrite Hbs.
  split; [by eexists _, _|].
  intros received (order & Hperm & ->).
  split; [by apply length_received|]. split; [|split].
  - intros ts Hts. rewrite (length_received _ _ Hperm). f_equal.
    clear Hsub Hbs Hperm. induction Hts as [|l t ls ts (page & Hf & <-) _ IH];
      [done|].
    rewrite !fmap_cons, IH. f_equal. unfold fetchedCount.
    unfold fetch in Hf. by rewrite Hf.
  - intros e (b & He & Hb)%list_elem_of_join.
    rewrite Hperm in Hb.
    apply list_elem_of_omap in Hb as (ob & Hob & Heq).
    unfold id in Heq. subst ob.
    apply list_elem_of_fmap in Hob as (l & Hbl & Hl). symmetry in Hbl.
    destruct (batchOf_recordOf l b Hbl) as (page & Hf & Hrec & _).
    destruct (proj1 (list_elem_of_lookup _ _) He) as [k Hk].
    destruct (Forall2_lookup_r _ _ _ _ _ Hrec Hk) as (tx & Htx & Hr).
    exists l, page, tx. split; [done|]. split; [done|].
    split; [by eapply list_elem_of_lookup_2|done].
  - intros l page tx Hl Hf Htx. exists (toEntry i l tx). split; [|done].
    apply list_elem_of_join. exists (toEntry i l <$> Records page).
    split; [by apply list_elem_of_fmap_2|].
    rewrite Hperm. apply list_elem_of_omap. exists (batchOf i l).
    split; [by apply list_elem_of_fmap_2|].
    unfold batchOf. unfold fetch in Hf. by rewrite Hf.
Qed.

End Facts.

Import Examples.

Lemma no_error_in_sample res :
  res ∈ [mkIngestResult
           (Some [Byte.x00; Byte.x01; Byte.x02; Byte.x03; Byte.x04; Byte.x05])
           None None;
         mkIngestResult (Some [Byte.x06; Byte.x07; Byte.x08])
           (Some [Byte.x00; Byte.x01; Byte.x02; Byte.x03; Byte.x04; Byte.x05])
           None] →
  Err res = None.
Proof.
  intros Hin.
  repeat (apply elem_of_cons in Hin as [->|Hin]; [reflexivity|]).
  by apply elem_of_nil in Hin.
Qed.

Lemma Ingest_chain_witness :
  ∃ calls rs batches,
    Ingest envelopes kin3 memory None = (calls, inr (rs, batches))
    ∧ (∀ res, res ∈ rs → Err res = None)
    ∧ (∀ k r0 r1, rs !! k = Some r0 → rs !! S k = Some r1 →
         Parent r1 = Block r0 ∧ ∃ b, Block r0 = Some b)
    ∧ (∀ r0, rs !! 0%nat = Some r0 → Parent r0 = None ∧ Err r0 = None).
Proof.
  eexists _, _, _. split; [vm_compute; reflexivity|].
  split; [exact no_error_in_sample|].
  destruct (Ingest_chain envelopes kin3 memory None _ _ _ eq_refl)
    as (_ & Hchain & Hfirst & Hcold).
  split; [exact (Hchain no_error_in_sample)|].
  intros r0 Hr0. split; [exact (Hfirst r0 Hr0)|].
  apply (Hcold ledgers (mkLedger 0) r0 eq_refl eq_refl Hr0).
  eexists. split; reflexivity.
Defined.

(** C1 as worded fails where the first ledger fails: from a cold start,
    with a writer that fails every batch, the first result carries the
    write error. *)
Lemma Ingest_cold_start_first_error :
  ∃ calls r0 rest batches,
    Ingest envelopes kin3 broken None = (calls, inr (r0 :: rest, batches))
    ∧ Err r0 = Some (Go.New "write failed")
    ∧ Err r0 ≠ None.
Proof.
  eexists _, _, _, _. split; [vm_compute; reflexivity|].
  split; [reflexivity|discriminate].
Qed.

Lemma Ingest_received_witness :
  StreamLedgers (client kin3) (ledgerRequest None) = inr ledgers
  ∧ ∃ calls rs batches,
      Ingest envelopes kin3 memory None = (calls, inr (rs, batches))
      ∧ (∃ received, writerReceives batches received)
      ∧ ∀ received, writerReceives batches received →
          length received = 3%nat
          ∧ ∀ e, e ∈ received →
              ∃ l page tx,
                l ∈ ledgers
                ∧ Transactions (client kin3) (mkTransactionRequest (Sequence l))
                  = inr page
                ∧ tx ∈ Records page ∧ recordOf kin3 l tx e.
Proof.
  split; [reflexivity|].
  destruct (Ingest_received envelopes kin3 memory None ledgers eq_refl)
    as (calls & rs & batches & Hrun & Hsome & Hall).
  exists calls, rs, batches. split; [exact Hrun|]. split; [exact Hsome|].
  intros received Hrec.
  destruct (Hall received Hrec) as (Hlen & _ & Hin & _).
  split; [exact Hlen|exact Hin].
Defined.

(** C5 as worded fails where a fetch fails.  The two ledgers of the
    chain contain three transactions; with a client whose fetch of
    ledger 1 fails, the result of that ledger carries the error and the
    writer, which takes every batch, receives the two entries of
    ledger 0 only. *)
Lemma Ingest_failed_fetch_not_received :
  StreamLedgers flaky (ledgerRequest None) = inr ledgers
  ∧ sum_list ((λ l, length (chainContent (Sequence l))) <$> ledgers) = 3%nat
  ∧ ∃ calls rs batches,
      Ingest envelopes (Ingestion.New KinVersion_KIN3 flaky) memory None
      = (calls, inr (rs, batches))
      ∧ Err <$> rs = [None; Some (Go.New "connection reset")]
      ∧ ∀ received,
          writerReceives batches received →
          length received = 2%nat ∧ length received ≠ 3%nat.
Proof.
  split; [reflexivity|]. split; [reflexivity|].
  eexists _, _, _. split; [vm_compute; reflexivity|].
  split; [reflexivity|].
  intros received (order & Hperm & ->). simpl in Hperm.
  apply Permutation_singleton_r in Hperm as ->. split; [reflexivity|discriminate].
Qed.

End IngestionFacts.

(** ** The invoice store *)

Module InvoiceStoreFacts.
Import Dynamo InvoiceStore.

Section Facts.

Variable Invoice : Type.
Variable tableNameStr tableHashKey tableRangeKey : string.
Variable fromItem : gmap string AttributeValue → error + Invoice.

Let Get := Get Invoice tableNameStr tableHashKey tableRangeKey fromItem.

(** C9. [Get] rejects an invoice hash whose length is not 28, and then a
    transaction hash whose length is not 32, with a validation error and
    without any request to the datastore; otherwise it sends one request
    and, the item decoder never answering [ErrNotFound] itself, returns
    [ErrNotFound] exactly when the datastore answers with an empty
    item. *)
Theorem Get_validates_then_reads d invoiceHash txHash sent :
  (∀ it, fromItem it ≠ inl ErrNotFound) →
  (length invoiceHash ≠ 28%nat →
     Get d invoiceHash txHash sent
     = (inl (Go.New (String.append "invalid invoice hash len: "
                       (lenText invoiceHash))), sent))
  ∧ (length invoiceHash = 28%nat → length txHash ≠ 32%nat →
     Get d invoiceHash txHash sent
     = (inl (Go.New (String.append "invalid transaction hash len: "
                       (lenText txHash))), sent))
  ∧ (length invoiceHash = 28%nat → length txHash = 32%nat →
     let req := mkGetItemInput tableNameStr
                  {[ tableHashKey := AttrB invoiceHash;
                     tableRangeKey := AttrB txHash ]} in
     ∃ res, Get d invoiceHash txHash sent = (res, sent ++ [req])
            ∧ (res = inl ErrNotFound ↔
                 ∃ out, SendGetItem (client d) req = inr out ∧ item out = ∅)).
Proof.
  intros Hdec. unfold Get, InvoiceStore.Get. split; [|split].
  - intros Hlen. apply Nat.eqb_neq in Hlen. by rewrite Hlen.
  - intros Hlen1 Hlen2. apply Nat.eqb_eq in Hlen1. apply Nat.eqb_neq in Hlen2.
    by rewrite Hlen1, Hlen2.
  - intros Hlen1 Hlen2. apply Nat.eqb_eq in Hlen1, Hlen2.
    rewrite Hlen1, Hlen2. unfold send. simpl.
    set (req := mkGetItemInput _ _).
    destruct (SendGetItem (client d) req) as [err|out]; simpl.
    + eexists. split; [done|]. split; [done|]. by intros (out & [=] & _).
    + destruct (Nat.eqb_spec (size (item out)) 0) as [Hz|Hnz].
      * eexists. split; [done|]. split; [|done]. intros _. exists out.
        split; [done|]. by apply map_size_empty_iff.
      * eexists. split; [done|]. split.
        -- intros Hnf. by apply Hdec in Hnf.
        -- intros (out' & [= <-] & Hempty). destruct Hnz.
           by apply map_size_empty_iff.
Qed.

End Facts.

Import Examples.

Lemma contentsOf_not_ErrNotFound it : contentsOf it ≠ inl ErrNotFound.
Proof.
  unfold contentsOf. by destruct (it !! "contents") as [[]|].
Qed.

Lemma Get_validates_then_reads_witness :
  (∀ it, contentsOf it ≠ inl ErrNotFound)
  ∧ Get Ingestion.bytes "invoices" "invoice_hash" "tx_hash" contentsOf
      (New emptyTable) (replicate 28 Byte.x00) (replicate 32 Byte.x00) []
    = (inl ErrNotFound,
       [mkGetItemInput "invoices"
          {[ "invoice_hash" := AttrB (replicate 28 Byte.x00);
             "tx_hash" := AttrB (replicate 32 Byte.x00) ]}]).
Proof.
  split; [exact contentsOf_not_ErrNotFound|].
  destruct (Get_validates_then_reads Ingestion.bytes "invoices" "invoice_hash"
              "tx_hash" contentsOf (New emptyTable) (replicate 28 Byte.x00)
              (replicate 32 Byte.x00) [] contentsOf_not_ErrNotFound)
    as (_ & _ & Hread).
  destruct (Hread eq_refl eq_refl) as (res & Hget & Hnf).
  rewrite Hget. f_equal. apply Hnf. by eexists.
Defined.

End InvoiceStoreFacts.

(** ** The account-info cache *)

Module AccountInfoCacheFacts.
Import Dynamo AccountInfoCache.

Section Facts.

Variable AccountInfo : Type.
Variable tableNameStr tableHashKey : string.
Variable fromItem : gmap string AttributeValue → error + AccountInfo * Time.

Let Get := Get AccountInfo tableNameStr tableHashKey fromItem.

(** C10, as the code has it. [Get] returns [ErrAccountInfoNotFound] when
    the datastore holds no item for the key and when the stored item's
    expiry is before the current time; it returns the cached info when
    the expiry is the current time or later, and only then. *)
Theorem Get_expiry c key now :
  let req := mkGetItemInput tableNameStr {[ tableHashKey := AttrB key ]} in
  (∀ out, SendGetItem (client c) req = inr out → item out = ∅ →
     Get c key now = inl ErrAccountInfoNotFound)
  ∧ (∀ out info expiry,
       SendGetItem (client c) req = inr out → item out ≠ ∅ →
       fromItem (item out) = inr (info, expiry) →
       (expiry < now → Get c key now = inl ErrAccountInfoNotFound)
       ∧ (now ≤ expiry → Get c key now = inr info))
  ∧ (∀ info, Get c key now = inr info →
       ∃ out expiry,
         SendGetItem (client c) req = inr out
         ∧ fromItem (item out) = inr (info, expiry)
         ∧ now ≤ expiry).
Proof.
  intros req. unfold Get, AccountInfoCache.Get, Before. fold req.
  split; [|split].
  - intros out -> ->. by rewrite map_size_empty.
  - intros out info expiry -> Hne ->.
    destruct (Nat.eqb_spec (size (item out)) 0) as [Hz|_].
    { by apply map_size_empty_iff in Hz. }
    split; intros Hcmp.
    + apply Z.ltb_lt in Hcmp. by rewrite Hcmp.
    + apply Z.ltb_ge in Hcmp. by rewrite Hcmp.
  - intros info.
    destruct (SendGetItem (client c) req) as [|out]; [done|].
    destruct (size (item out) =? 0)%nat; [done|].
    destruct (fromItem (item out)) as [|[info' expiry]] eqn:Hdec; [done|].
    destruct (Z.ltb_spec expiry now); [done|].
    intros [= <-]. by exists out, expiry.
Qed.

End Facts.

Import Examples.

(** C10 as worded fails at the instant of expiry: the stored item
    expires at 100, which is not after the current time 100, and [Get]
    serves it instead of answering [ErrAccountInfoNotFound]. *)
Lemma Get_serves_at_expiry :
  infoOf {[ "account_info" := AttrB [Byte.x01]; "expiry" := AttrN "100" ]}
  = inr ([Byte.x01], 100)
  ∧ ¬ (100 < 100)
  ∧ Get Ingestion.bytes "account-info" "key" infoOf (New oneItem 60) [Byte.x02] 100
    = inr [Byte.x01]
  ∧ Get Ingestion.bytes "account-info" "key" infoOf (New oneItem 60) [Byte.x02] 100
    ≠ inl ErrAccountInfoNotFound.
Proof.
  split; [reflexivity|]. split; [lia|]. split; [reflexivity|].
  vm_compute. discriminate.
Qed.

End AccountInfoCacheFacts.

(** ** Event streams over time *)

Module StreamOpsFacts.
Import Stream StreamFacts StreamOps Examples.

Lemma drain_spec n : ∀ s,
  drain n s
  = inr (take n (buf (streamCh s)),
         mkEventStream (mu s) (closed s)
           (mkChan (drop n (buf (streamCh s))) (cap (streamCh s))
              (chClosed (streamCh s)))).
Proof.
  induction n as [|n IH]; intros [l c [b k cc]]; simpl.
  - reflexivity.
  - unfold mbind, run_bind at 1. unfold receive, on_chan, try_recv. simpl.
    destruct b as [|x b]; simpl.
    + unfold mbind, run_bind at 1. rewrite IH. simpl.
      by rewrite take_nil, drop_nil.
    + unfold mbind, run_bind at 1. by rewrite IH.
Qed.

Lemma step_inv s s' : stream_inv s → step s s' → stream_inv s'.
Proof.
  intros Hs Hstep. destruct Hstep;
    eauto using notify_inv, close_inv, receive_inv.
Qed.

Lemma step_reachable s s' : reachable s → step s s' → reachable s'.
Proof.
  intros Hs Hstep. destruct Hstep;
    eauto using reach_notify, reach_close, reach_receive.
Qed.

(** What [notify] does on a stream that satisfies the invariant. *)
Lemma notify_cases e r m s :
  stream_inv s →
  (closed s = true ∧ notify e r m s = inr (Some StreamClosed, s))
  ∨ (closed s = false
     ∧ (length (buf (streamCh s)) < cap (streamCh s))%nat
     ∧ notify e r m s = inr (None, enqueue (mkEventData e r m) s))
  ∨ (closed s = false
     ∧ (cap (streamCh s) ≤ length (buf (streamCh s)))%nat
     ∧ notify e r m s = inr (Some StreamFull, shut s)).
Proof.
  intros (Hmu & Hcc & _). destruct (closed s) eqn:Hc.
  - left. split; [done|]. by apply notify_when_closed.
  - right.
    destruct (Nat.lt_ge_cases (length (buf (streamCh s))) (cap (streamCh s))).
    + left. split; [done|]. split; [done|]. by apply notify_when_room.
    + right. split; [done|]. split; [done|]. by apply notify_when_full.
Qed.

(** X1. Between calls, every stream the program can hold has its mutex
    free, its [closed] flag equal to the state of its channel, and no
    more queued events than its capacity. *)
Theorem stream_invariant s :
  reachable s →
  mu s = false
  ∧ closed s = chClosed (streamCh s)
  ∧ (length (buf (streamCh s)) ≤ cap (streamCh s))%nat.
Proof. apply reachable_inv. Qed.

Lemma stream_invariant_witness :
  reachable (fresh 5)
  ∧ mu (fresh 5) = false
  ∧ closed (fresh 5) = chClosed (streamCh (fresh 5))
  ∧ (length (buf (streamCh (fresh 5))) ≤ cap (streamCh (fresh 5)))%nat.
Proof.
  assert (Hs : reachable (fresh 5)) by (apply (reach_new 5); reflexivity).
  split; [exact Hs|]. exact (stream_invariant (fresh 5) Hs).
Defined.

(** X2. [notify] never panics and never deadlocks, and it has three
    outcomes only: StreamClosed with nothing changed on a closed stream;
    nil with the event appended on an open stream with room; StreamFull
    on an open stream that is full, however it got full, which closes
    the stream, keeps the queue and drops the event. *)
Theorem notify_outcomes e r m s :
  reachable s →
  ∃ res s',
    notify e r m s = inr (res, s')
    ∧ ((closed s = true ∧ res = Some StreamClosed ∧ s' = s)
       ∨ (closed s = false
          ∧ (length (buf (streamCh s)) < cap (streamCh s))%nat
          ∧ res = None
          ∧ s' = enqueue (mkEventData e r m) s)
       ∨ (closed s = false
          ∧ (cap (streamCh s) ≤ length (buf (streamCh s)))%nat
          ∧ res = Some StreamFull
          ∧ closed s' = true
          ∧ buf (streamCh s') = buf (streamCh s))).
Proof.
  intros Hs%reachable_inv.
  destruct (notify_cases e r m s Hs) as [[? ->]|[(? & ? & ->)|(? & ? & ->)]];
    eexists _, _; (split; [reflexivity|]).
  - by left.
  - right; left. by repeat split.
  - right; right. by repeat split.
Qed.

Lemma notify_outcomes_witness :
  reachable (fresh 0)
  ∧ ∃ res s',
      notify payment12 success meta12 (fresh 0) = inr (res, s')
      ∧ ((closed (fresh 0) = true ∧ res = Some StreamClosed ∧ s' = fresh 0)
         ∨ (closed (fresh 0) = false
            ∧ (length (buf (streamCh (fresh 0))) < cap (streamCh (fresh 0)))%nat
            ∧ res = None
            ∧ s' = enqueue event12 (fresh 0))
         ∨ (closed (fresh 0) = false
            ∧ (cap (streamCh (fresh 0)) ≤ length (buf (streamCh (fresh 0))))%nat
            ∧ res = Some StreamFull
            ∧ closed s' = true
            ∧ buf (streamCh s') = buf (streamCh (fresh 0)))).
Proof.
  assert (Hs : reachable (fresh 0)) by (apply (reach_new 0); reflexivity).
  split; [exact Hs|].
  exact (notify_outcomes payment12 success meta12 (fresh 0) Hs).
Defined.

Lemma step_closed s s' :
  stream_inv s → closed s = true → step s s' →
  closed s' = true ∧ buf (streamCh s') `suffix_of` buf (streamCh s).
Proof.
  intros Hinv Hc Hstep. destruct Hinv as (Hmu & Hcc & Hlen).
  destruct Hstep as [s d res s' Hn|s s' Hcl|s v s' Hr].
  - unfold notifyData in Hn. rewrite notify_when_closed in Hn by done.
    by injection Hn as <- <-.
  - rewrite close_when_closed in Hcl by done. by injection Hcl as <-.
  - destruct s as [l c [b k cc]]. simpl in *.
    unfold receive, on_chan, try_recv in Hr. simpl in Hr.
    destruct b as [|x b]; injection Hr as <- <-; simpl.
    + done.
    + split; [done|]. apply suffix_cons_r. done.
Qed.

(** X3. Closing is final: once the [closed] flag of a stream is set, no
    sequence of [notify], [close] and reads clears it or adds an event;
    the queue can only lose its oldest events to the subscriber. *)
Theorem closed_is_final s s' :
  reachable s → closed s = true → rtc step s s' →
  closed s' = true ∧ buf (streamCh s') `suffix_of` buf (streamCh s).
Proof.
  intros Hs Hc Hsteps. revert Hs Hc.
  induction Hsteps as [s|s s1 s2 Hstep _ IH]; intros Hs Hc.
  - done.
  - destruct (step_closed s s1 (reachable_inv s Hs) Hc Hstep) as [Hc1 Hsuf].
    destruct (IH (step_reachable s s1 Hs Hstep) Hc1) as [Hc2 Hsuf2].
    split; [done|]. by etrans.
Qed.

Lemma closed_is_final_witness :
  reachable (shut (enqueue event12 (fresh 5)))
  ∧ closed (shut (enqueue event12 (fresh 5))) = true
  ∧ rtc step (shut (enqueue event12 (fresh 5))) (shut (fresh 5))
  ∧ closed (shut (fresh 5)) = true
  ∧ buf (streamCh (shut (fresh 5)))
    `suffix_of` buf (streamCh (shut (enqueue event12 (fresh 5)))).
Proof.
  assert (Hs : reachable (shut (enqueue event12 (fresh 5)))).
  { apply (reach_close (enqueue event12 (fresh 5))); [|reflexivity].
    apply (reach_notify (fresh 5) event12 None); [|reflexivity].
    apply (reach_new 5). reflexivity. }
  assert (Hsteps : rtc step (shut (enqueue event12 (fresh 5))) (shut (fresh 5))).
  { apply rtc_once. by apply (step_receive _ (Some event12)). }
  split; [exact Hs|]. split; [reflexivity|]. split; [exact Hsteps|].
  exact (closed_is_final _ _ Hs eq_refl Hsteps).
Defined.

(** X4. The queue is first in, first out: on an open stream, events
    notified while there is room all return nil, and the subscriber then
    reads the events queued before followed by the new ones, in the
    order of the [notify] calls, which leaves the queue empty. *)
Theorem queue_is_fifo s ds :
  reachable s → closed s = false →
  (length (buf (streamCh s)) + length ds ≤ cap (streamCh s))%nat →
  ∃ s1 s2,
    notifyAll ds s = inr (repeat None (length ds), s1)
    ∧ drain (length (buf (streamCh s)) + length ds) s1
      = inr (buf (streamCh s) ++ ds, s2)
    ∧ buf (streamCh s2) = []
    ∧ closed s2 = false.
Proof.
  intros Hs Hc Hlen. destruct (reachable_inv s Hs) as (Hmu & Hcc & _).
  eexists _, _. split.
  { apply notifyAll_room; [done|done|congruence|done]. }
  rewrite drain_spec. simpl. rewrite <- length_app.
  rewrite firstn_all, drop_all. done.
Qed.

Lemma queue_is_fifo_witness :
  reachable (enqueue event23 (fresh 3))
  ∧ closed (enqueue event23 (fresh 3)) = false
  ∧ (length (buf (streamCh (enqueue event23 (fresh 3))))
     + length [event12; event23]
     ≤ cap (streamCh (enqueue event23 (fresh 3))))%nat
  ∧ ∃ s1 s2,
      notifyAll [event12; event23] (enqueue event23 (fresh 3))
      = inr ([None; None], s1)
      ∧ drain 3 s1 = inr ([event23; event12; event23], s2)
      ∧ buf (streamCh s2) = []
      ∧ closed s2 = false.
Proof.
  assert (Hs : reachable (enqueue event23 (fresh 3))).
  { apply (reach_notify (fresh 3) event23 None); [|reflexivity].
    apply (reach_new 3). reflexivity. }
  split; [exact Hs|]. split; [reflexivity|]. split; [simpl; lia|].
  apply (queue_is_fifo (enqueue event23 (fresh 3)) [event12; event23] Hs).
  - reflexivity.
  - simpl; lia.
Defined.

(** X5. Backpressure loses the overflowing event only: after [K] events
    filled a stream of capacity [K] and one more closed it, the
    subscriber still reads the [K] accepted events in order from the
    closed stream, never the one that overflowed, and the drained stream
    keeps refusing new events with StreamClosed. *)
Theorem overflow_keeps_accepted K s0 ds d n d' :
  newEventStream K = inr s0 → length ds = Z.to_nat K → (length ds ≤ n)%nat →
  ∃ s2 s3,
    notifyAll (ds ++ [d]) s0
    = inr (repeat None (length ds) ++ [Some StreamFull], s2)
    ∧ closed s2 = true
    ∧ drain n s2 = inr (ds, s3)
    ∧ buf (streamCh s3) = []
    ∧ notifyData d' s3 = inr (Some StreamClosed, s3).
Proof.
  unfold newEventStream, make_chan.
  destruct (K <? 0); [discriminate|]. intros [= <-] Hlen Hn.
  set (s1 := mkEventStream false false (mkChan ds (Z.to_nat K) false)).
  assert (H1 : notifyAll ds (mkEventStream false false (mkChan [] (Z.to_nat K) false))
               = inr (repeat None (length ds), s1)).
  { rewrite notifyAll_room; simpl; try done. lia. }
  assert (H2 : notifyData d s1 = inr (Some StreamFull, shut s1)).
  { unfold notifyData. rewrite notify_when_full; simpl; try done. lia. }
  eexists (shut s1), _. split; [|split; [done|split]].
  - rewrite notifyAll_app, H1. simpl.
    unfold mbind, run_bind at 1. by rewrite H2.
  - rewrite drain_spec. simpl. by rewrite take_ge by done.
  - simpl. rewrite drop_ge by done. split; [done|].
    unfold notifyData. by rewrite notify_when_closed.
Qed.

Lemma overflow_keeps_accepted_witness :
  newEventStream 2 = inr (fresh 2)
  ∧ length [event12; event23] = Z.to_nat 2
  ∧ (length [event12; event23] ≤ 4)%nat
  ∧ ∃ s2 s3,
      notifyAll ([event12; event23] ++ [event12]) (fresh 2)
      = inr ([None; None] ++ [Some StreamFull], s2)
      ∧ closed s2 = true
      ∧ drain 4 s2 = inr ([event12; event23], s3)
      ∧ buf (streamCh s3) = []
      ∧ notifyData event23 s3 = inr (Some StreamClosed, s3).
Proof.
  split; [reflexivity|]. split; [reflexivity|]. split; [simpl; lia|].
  apply (overflow_keeps_accepted 2 (fresh 2) [event12; event23] event12 4
           event23).
  - reflexivity.
  - reflexivity.
  - simpl; lia.
Defined.

End StreamOpsFacts.

(** ** The invoice store: Add and Exists *)

Module InvoiceWritesFacts.
Import Dynamo DynamoWrites InvoiceStore InvoiceWrites.

Section Facts.

Variable Invoice : Type.
Variable tableNameStr putConditionStr existsKeyConditionStr : string.
Variable tableHashKey tableRangeKey : string.
Variable toItem : Invoice → Ingestion.bytes → error + gmap string AttributeValue.
Variable fromItem : gmap string AttributeValue → error + Invoice.
Variable awsCode : error → option string.

Let Add := Add Invoice tableNameStr putConditionStr toItem awsCode.
Let Exists := Exists tableNameStr existsKeyConditionStr.
Let Get := Get Invoice tableNameStr tableHashKey tableRangeKey fromItem.

(** X6. [Add] stores only through a put that carries the put condition,
    and sends nothing when the invoice cannot be encoded.  It returns
    nil exactly when the datastore takes the put, and [ErrExists]
    exactly when the datastore refuses it with the code of a failed
    conditional check; any other refusal comes back wrapped, never as
    [ErrExists]. *)
Theorem Add_is_conditional api inv txHash puts :
  (∀ err, toItem inv txHash = inl err → Add api inv txHash puts = (Some err, puts))
  ∧ (∀ it, toItem inv txHash = inr it →
       let req := mkPutItemInput tableNameStr it (Some putConditionStr) in
       ∃ res, Add api inv txHash puts = (res, puts ++ [req])
         ∧ (res = None ↔ SendPutItem api req = None)
         ∧ (res = Some ErrExists ↔
              ∃ err, SendPutItem api req = Some err
                     ∧ awsCode err = Some ErrCodeConditionalCheckFailedException)
         ∧ (∀ err, SendPutItem api req = Some err →
              awsCode err ≠ Some ErrCodeConditionalCheckFailedException →
              res = Some (Wrap err "failed to store invoice"))).
Proof.
  unfold Add, InvoiceWrites.Add. split.
  - by intros err ->.
  - intros it ->. simpl.
    set (req := mkPutItemInput tableNameStr it (Some putConditionStr)).
    destruct (SendPutItem api req) as [err|] eqn:Hput.
    + destruct (awsCode err) as [code|] eqn:Hcode.
      * destruct (String.eqb_spec code ErrCodeConditionalCheckFailedException)
          as [->|Hne].
        -- eexists. split; [done|]. split; [done|]. split; [|congruence].
           split; [eauto|done].
        -- eexists. split; [done|]. split; [done|]. split; [|congruence].
           split; [done|]. intros (err' & [= <-] & Hc). congruence.
      * eexists. split; [done|]. split; [done|]. split; [|congruence].
        split; [done|]. intros (err' & [= <-] & Hc). congruence.
    + eexists. split; [done|]. split; [done|]. split; [|done].
      split; [done|]. by intros (? & [=] & _).
Qed.

(** X7. [Exists] sends one query, limited to one item and keyed by the
    invoice hash, and answers true exactly when that query succeeds with
    at least one item; a failed query answers false with the wrapped
    error, so true never comes with an error. *)
Theorem Exists_answer api invoiceHash queries :
  let input := mkQueryInput tableNameStr existsKeyConditionStr
                 {[ ":invoice_hash" := AttrB invoiceHash ]} (Some 1) in
  ∃ found err,
    Exists api invoiceHash queries = ((found, err), queries ++ [input])
    ∧ (found = true ↔
         ∃ resp, SendQuery api input = inr resp ∧ Items resp ≠ [])
    ∧ (∀ e, SendQuery api input = inl e →
         found = false ∧ err = Some (Wrap e "failed to query invoices"))
    ∧ (found = true → err = None).
Proof.
  intros input. unfold Exists, InvoiceWrites.Exists. fold input.
  destruct (SendQuery api input) as [e|resp].
  - eexists _, _. split; [done|]. split; [|split; [|done]].
    + split; [done|]. by intros (? & [=] & _).
    + by intros ? [= <-].
  - eexists _, _. split; [done|]. split; [|split; [done|done]].
    destruct (Items resp) as [|x xs] eqn:Hitems; simpl.
    + split; [done|]. intros (? & [= <-] & ?). congruence.
    + split; [|done]. intros _. exists resp. split; [done|congruence].
Qed.

(** X8. [Get] checks the length of the invoice hash and [Exists] does
    not: for a hash that is not 28 bytes long [Get] fails without a
    request to the datastore, while [Exists] still queries it with that
    hash. *)
Theorem Exists_skips_validation d api invoiceHash txHash sent queries :
  length invoiceHash ≠ 28%nat →
  (Get d invoiceHash txHash sent).2 = sent
  ∧ (∃ msg, (Get d invoiceHash txHash sent).1 = inl (Go.New msg))
  ∧ (Exists api invoiceHash queries).2
    = queries ++ [mkQueryInput tableNameStr existsKeyConditionStr
                    {[ ":invoice_hash" := AttrB invoiceHash ]} (Some 1)].
Proof.
  intros Hlen. unfold Get, InvoiceStore.Get, Exists, InvoiceWrites.Exists.
  apply Nat.eqb_neq in Hlen. rewrite Hlen. simpl.
  split; [done|]. split; [eauto|].
  by destruct (SendQuery api _).
Qed.

End Facts.

Import Examples MoreExamples.

Lemma Exists_skips_validation_witness :
  length (@nil Byte.byte) ≠ 28%nat
  ∧ (Get Ingestion.bytes "invoices" "invoice_hash" "tx_hash" contentsOf
       (InvoiceStore.New emptyTable) [] (replicate 32 Byte.x00) []).2 = []
  ∧ (Exists "invoices" "invoice_hash = :invoice_hash" acceptAll [] []).2
    = [mkQueryInput "invoices" "invoice_hash = :invoice_hash"
         {[ ":invoice_hash" := AttrB [] ]} (Some 1)].
Proof.
  split; [simpl; lia|].
  destruct (Exists_skips_validation Ingestion.bytes "invoices"
              "invoice_hash = :invoice_hash" "invoice_hash" "tx_hash"
              contentsOf (InvoiceStore.New emptyTable) acceptAll []
              (replicate 32 Byte.x00) [] [])
    as (Hget & _ & Hexists); [simpl; lia|].
  split; [exact Hget|exact Hexists].
Defined.

End InvoiceWritesFacts.

(** ** The account-info cache: Put, then Get *)

Module AccountInfoCacheWritesFacts.
Import Dynamo DynamoWrites AccountInfoCache AccountInfoCacheWrites.

Section Facts.

Variable AccountInfo : Type.
Variable tableNameStr tableHashKey : string.
Variable toItem : AccountInfo → Time → error + gmap string AttributeValue.
Variable fromItem : gmap string AttributeValue → error + AccountInfo * Time.

Let Put := Put AccountInfo tableNameStr toItem.
Let Get := Get AccountInfo tableNameStr tableHashKey fromItem.

(** X9. An entry lives for the cache's TTL, the last instant included.
    When [Put] at time [now] returns nil it has sent one put, without
    condition, of the item encoded with expiry [now + itemTTL]; and if
    the datastore later answers a [Get] with that item, which decodes to
    what was encoded, [Get] serves the info at every time up to
    [now + itemTTL] and answers [ErrAccountInfoNotFound] after it. *)
Theorem Put_then_Get c api info now puts puts' :
  Put c api info now puts = (None, puts') →
  ∃ it,
    toItem info (now + itemTTL c) = inr it
    ∧ puts' = puts ++ [mkPutItemInput tableNameStr it None]
    ∧ ∀ key now',
        SendGetItem (client c)
          (mkGetItemInput tableNameStr {[ tableHashKey := AttrB key ]})
        = inr (mkGetItemOutput it) →
        it ≠ ∅ →
        fromItem it = inr (info, now + itemTTL c) →
        (now' ≤ now + itemTTL c → Get c key now' = inr info)
        ∧ (now + itemTTL c < now' → Get c key now' = inl ErrAccountInfoNotFound).
Proof.
  unfold Put, AccountInfoCacheWrites.Put.
  destruct (toItem info (now + itemTTL c)) as [|it]; [done|].
  simpl. destruct (SendPutItem api _); [done|]. intros [= <-].
  exists it. split; [done|]. split; [done|].
  intros key now' Hresp Hne Hdec.
  unfold Get, AccountInfoCache.Get, Before. rewrite Hresp. simpl.
  destruct (Nat.eqb_spec (size it) 0) as [Hz|_].
  { by apply map_size_empty_iff in Hz. }
  rewrite Hdec. split; intros Hcmp.
  - apply Z.ltb_ge in Hcmp. by rewrite Hcmp.
  - apply Z.ltb_lt in Hcmp. by rewrite Hcmp.
Qed.

End Facts.

Import Examples MoreExamples.

Lemma Put_then_Get_witness :
  Put Ingestion.bytes "account-info" itemOf (New oneItem 60) acceptAll
    [Byte.x01] 40 []
  = (None, [mkPutItemInput "account-info"
              {[ "account_info" := AttrB [Byte.x01]; "expiry" := AttrN "100" ]}
              None])
  ∧ Get Ingestion.bytes "account-info" "key" infoOf (New oneItem 60) [Byte.x02] 100
    = inr [Byte.x01]
  ∧ Get Ingestion.bytes "account-info" "key" infoOf (New oneItem 60) [Byte.x02] 101
    = inl ErrAccountInfoNotFound.
Proof.
  assert (Hput : Put Ingestion.bytes "account-info" itemOf (New oneItem 60)
                   acceptAll [Byte.x01] 40 []
                 = (None, [mkPutItemInput "account-info"
                             {[ "account_info" := AttrB [Byte.x01];
                                "expiry" := AttrN "100" ]} None]))
    by reflexivity.
  split; [exact Hput|].
  destruct (Put_then_Get Ingestion.bytes "account-info" "key" itemOf infoOf
              (New oneItem 60) acceptAll [Byte.x01] 40 [] _ Hput)
    as (it & Hit & _ & Hget).
  injection Hit as <-.
  destruct (Hget [Byte.x02] 100) as [Hserve _];
    [reflexivity|discriminate|reflexivity|].
  destruct (Hget [Byte.x02] 101) as [_ Hgone];
    [reflexivity|discriminate|reflexivity|].
  split; [apply Hserve; simpl; lia|apply Hgone; simpl; lia].
Defined.

End AccountInfoCacheWritesFacts.

(** ** The static app-index resolver *)

Module StaticResolverFacts.
Import StaticResolver.

Section Facts.

Variable AppIndex : Ingestion.bytes → N.
Variable EncodeToString : Ingestion.bytes → string.

Let Resolve := Resolve AppIndex EncodeToString.

Lemma mapping_lookup k :
  mapping !! k
  = if decide (k = 0%N) then Some "test.kin.org"
    else if decide (k = 1%N) then Some "api.kik.com" else None.
Proof.
  unfold mapping. rewrite lookup_insert. case_decide; [by subst|].
  case_decide; [by subst|].
  rewrite lookup_singleton. case_decide; [by subst|]. by case_decide.
Qed.

(** X10. [Resolve] knows the app indexes 0 and 1 only: it fails exactly
    for the other indexes, always with [ErrNotFound], and for a known
    index the URL is the domain of the index under https, the resolve
    path and the encoded memo. *)
Theorem Resolve_known_indexes m :
  (Resolve m = inl ErrNotFound ↔ AppIndex m ≠ 0%N ∧ AppIndex m ≠ 1%N)
  ∧ (∀ err, Resolve m = inl err → err = ErrNotFound)
  ∧ (AppIndex m = 0%N →
     Resolve m = inr (mkAgoraDataUrl
                        (String.append "https://test.kin.org/agora/resolve/"
                           (EncodeToString m))))
  ∧ (AppIndex m = 1%N →
     Resolve m = inr (mkAgoraDataUrl
                        (String.append "https://api.kik.com/agora/resolve/"
                           (EncodeToString m)))).
Proof.
  unfold Resolve, StaticResolver.Resolve. rewrite mapping_lookup.
  repeat case_decide; repeat split; try done; try lia;
    try (intros [??]; congruence); try (by intros ? [= <-]).
Qed.

(** X11. The URL tells the memo: when the encoder is one to one, two
    memos that resolve to the same URL are the same memo. *)
Theorem Resolve_injective m1 m2 u :
  (∀ a b, EncodeToString a = EncodeToString b → a = b) →
  Resolve m1 = inr u → Resolve m2 = inr u → m1 = m2.
Proof.
  intros Hinj. unfold Resolve, StaticResolver.Resolve.
  rewrite !mapping_lookup.
  repeat case_decide; try done; intros [= <-] [= Heq]; by apply Hinj.
Qed.

End Facts.

Import MoreExamples.

Lemma memoText_inj a b : memoText a = memoText b → a = b.
Proof.
  unfold memoText. intros H.
  rewrite <- (String.list_byte_of_string_of_list_byte a),
    <- (String.list_byte_of_string_of_list_byte b).
  by rewrite H.
Qed.

Lemma Resolve_injective_witness :
  (∀ a b, memoText a = memoText b → a = b)
  ∧ Resolve (λ m, N.of_nat (length m)) memoText [Byte.x01]
    = inr (mkAgoraDataUrl
             (String.append "https://api.kik.com/agora/resolve/"
                (memoText [Byte.x01])))
  ∧ [Byte.x01] = [Byte.x01].
Proof.
  split; [exact memoText_inj|]. split; [reflexivity|].
  apply (Resolve_injective (λ m, N.of_nat (length m)) memoText _ _
           (mkAgoraDataUrl
              (String.append "https://api.kik.com/agora/resolve/"
                 (memoText [Byte.x01])))
           memoText_inj); reflexivity.
Defined.

End StaticResolverFacts.

(** ** The transaction server *)

Module TransactionServerFacts.
Import TransactionServer.

Section Facts.

Variable AgoraData : Type.
Variable hexDecodeString : string → error + bytes.
Variable hexEncodeToString : bytes → string.
Variable b64DecodeString : string → error + bytes.
Variable b64EncodeToString : bytes → string.
Variable Unmarshal : bytes → error + XdrTransaction.
Variable IsValidMemoStrict : bytes → bool.
Variable MemoFromXDRString : string → bool → error + bytes.
Variable ForeignKey : bytes → bytes.
Variable ErrorText : error → string.
Variable horizonProblem : error → option Z.
Variable horizonclientProblem : error → option Z.
Variable ValidateSubmitSend : SubmitSendRequest → option error.
Variable ValidateGetTransaction : GetTransactionRequest → option error.
Variable ValidateGetHistory : GetHistoryRequest → option error.

Let server := server AgoraData.
Let getBinaryBlobs := getBinaryBlobs hexDecodeString b64DecodeString.
Let SubmitSend :=
  SubmitSend AgoraData hexDecodeString b64DecodeString b64EncodeToString
    Unmarshal IsValidMemoStrict ValidateSubmitSend.
Let GetTransaction :=
  GetTransaction AgoraData hexDecodeString hexEncodeToString b64DecodeString
    MemoFromXDRString ForeignKey ErrorText horizonProblem
    ValidateGetTransaction.
Let historyItem :=
  historyItem AgoraData hexDecodeString b64DecodeString MemoFromXDRString
    ForeignKey ErrorText.
Let historyItems :=
  historyItems AgoraData hexDecodeString b64DecodeString MemoFromXDRString
    ForeignKey ErrorText.
Let GetHistory :=
  GetHistory AgoraData hexDecodeString b64DecodeString MemoFromXDRString
    ForeignKey ErrorText horizonclientProblem ValidateGetHistory.

Let decodesTo := decodesTo AgoraData hexDecodeString b64DecodeString.
Let submittable := submittable Unmarshal IsValidMemoStrict ValidateSubmitSend.

Lemma getBinaryBlobs_ok hash result envelope h r e :
  getBinaryBlobs hash result envelope = inr (h, r, e) ↔
    hexDecodeString hash = inr h ∧ b64DecodeString result = inr r
    ∧ b64DecodeString envelope = inr e.
Proof.
  unfold getBinaryBlobs, TransactionServer.getBinaryBlobs.
  destruct (hexDecodeString hash); [split; [done|by intros ([=] & _)]|].
  destruct (b64DecodeString result); [split; [done|by intros (_ & [=] & _)]|].
  destruct (b64DecodeString envelope); [split; [done|by intros (_ & _ & [=])]|].
  split; [by intros [= -> -> ->]|by intros ([= ->] & [= ->] & [= ->])].
Qed.

Lemma memo_check tx :
  (∀ h, MemoHash tx = Some h → IsValidMemoStrict h = true) ↔
    match MemoHash tx with
    | Some h => negb (IsValidMemoStrict h)
    | None => false
    end = false.
Proof.
  destruct (MemoHash tx) as [h|]; [|done]. split.
  - intros Hok. by rewrite (Hok h eq_refl).
  - intros Hneg h0 [= <-]. by destruct (IsValidMemoStrict h).
Qed.

(** X12. [SubmitSend] submits nothing that fails its checks: a request
    that does not validate, whose XDR does not parse or whose hash memo
    is not a valid memo is answered InvalidArgument and Horizon receives
    nothing; every other request is submitted exactly once, as the
    base64 text of its XDR, and can then fail only with Internal. *)
Theorem SubmitSend_submits_only_valid (s : server) req submitted :
  ∃ res submitted',
    SubmitSend s req submitted = (res, submitted')
    ∧ (submittable req →
         submitted' = submitted ++ [b64EncodeToString (TransactionXdr req)]
         ∧ ∀ st, res = inl st → code st = Internal)
    ∧ (¬ submittable req →
         submitted' = submitted
         ∧ ∃ msg, res = inl (mkStatus InvalidArgument msg)).
Proof.
  unfold SubmitSend, TransactionServer.SubmitSend, submittable,
    TransactionServer.submittable.
  destruct (ValidateSubmitSend req) as [verr|] eqn:Hval.
  { eexists _, _. split; [done|]. split; [by intros [? _]|eauto]. }
  destruct (Unmarshal (TransactionXdr req)) as [uerr|tx] eqn:Hun.
  { eexists _, _. split; [done|]. split; [by intros (_ & ? & ? & _)|eauto]. }
  destruct (match MemoHash tx with
            | Some h => negb (IsValidMemoStrict h)
            | None => false
            end) eqn:Hcheck.
  { eexists _, _. split; [done|]. split; [|eauto].
    intros (_ & tx0 & [= <-] & Hok). apply memo_check in Hok. congruence. }
  destruct (SubmitTransaction s _) as [|hs];
    [|destruct (hexDecodeString _); [|destruct (b64DecodeString _)]];
    (eexists _, _; split; [done|]; split;
     [intros _; split; [done|]; by intros ? [= <-]
     |intros Hn; destruct Hn; split; [done|]; exists tx; split; [done|];
      by apply memo_check]).
Qed.

(** X13. [SubmitSend] answers with a response exactly when the request
    passes the checks, Horizon accepts the submission, and the hash and
    the result Horizon returns decode; the response then carries those
    decoded bytes and Horizon's ledger. *)
Theorem SubmitSend_response (s : server) req submitted resp :
  (SubmitSend s req submitted).1 = inr resp ↔
    submittable req
    ∧ ∃ hs,
        SubmitTransaction s (b64EncodeToString (TransactionXdr req)) = inr hs
        ∧ hexDecodeString (successHash hs) = inr (hashValue (sendHash resp))
        ∧ b64DecodeString (successResult hs) = inr (sendResultXdr resp)
        ∧ sendLedger resp = successLedger hs.
Proof.
  unfold SubmitSend, TransactionServer.SubmitSend, submittable,
    TransactionServer.submittable.
  destruct (ValidateSubmitSend req) as [verr|] eqn:Hval.
  { split; [done|]. by intros [[? _] _]. }
  destruct (Unmarshal (TransactionXdr req)) as [uerr|tx] eqn:Hun.
  { split; [done|]. by intros [(_ & ? & ? & _) _]. }
  pose proof (memo_check tx) as Hmemo.
  destruct (match MemoHash tx with
            | Some h => negb (IsValidMemoStrict h)
            | None => false
            end) eqn:Hcheck.
  { split; [done|]. intros [(_ & tx0 & [= <-] & Hok) _].
    apply Hmemo in Hok. congruence. }
  destruct (SubmitTransaction s _) as [serr|hs] eqn:Hsub; simpl.
  { split; [done|]. by intros (_ & ? & [=] & _). }
  destruct (hexDecodeString (successHash hs)) as [|hashBytes] eqn:Hhex; simpl.
  { split; [done|]. intros (_ & ? & [= <-] & ? & _). congruence. }
  destruct (b64DecodeString (successResult hs)) as [|resultXDR] eqn:Hb64; simpl.
  { split; [done|]. intros (_ & ? & [= <-] & _ & ? & _). congruence. }
  split.
  - intros [= <-]. simpl. split.
    + split; [done|]. exists tx. split; [done|]. by apply Hmemo.
    + by exists hs.
  - intros (_ & hs' & [= <-] & Hh & Hr & Hl).
    destruct resp as [[hv] l rx]. simpl in *. congruence.
Qed.

Lemma withAgoraData_core (s : server) memo item item' :
  withAgoraData AgoraData ForeignKey s memo item = inr item' →
  Hash item' = Hash item ∧ ResultXdr item' = ResultXdr item
  ∧ EnvelopeXdr item' = EnvelopeXdr item ∧ Cursor item' = Cursor item
  ∧ (∀ url, AgoraDataUrl item' = Some url →
       AgoraDataUrl item = Some url ∨ resolver s memo = inr url)
  ∧ (∀ d, AgoraDataOf item' = Some d →
       AgoraDataOf item = Some d ∨ txStore s (ForeignKey memo) = inr d).
Proof.
  unfold withAgoraData.
  destruct (resolver s memo) as [rerr|url].
  - case_decide; [|done].
    destruct (txStore s (ForeignKey memo)) as [serr|d].
    + case_decide; [|done]. intros [= <-]. repeat split; eauto.
    + intros [= <-]. simpl. repeat split; eauto. intros ? [= <-]. eauto.
  - destruct (txStore s (ForeignKey memo)) as [serr|d].
    + case_decide; [|done]. intros [= <-]. simpl. repeat split; eauto.
      intros ? [= <-]. eauto.
    + intros [= <-]. simpl. repeat split; eauto; intros ? [= <-]; eauto.
Qed.

(** X14. What [GetTransaction] answers with is the transaction Horizon
    holds under the requested hash: the response is SUCCESS with
    Horizon's ledger, the hash of the request, the decoded result and
    envelope and the cursor of the paging token; a data URL or data in
    it is what the resolver or the store answered for the memo. *)
Theorem GetTransaction_response (s : server) req resp :
  GetTransaction s req = inr (inr resp) →
  ∃ h tx,
    reqTransactionHash req = Some h
    ∧ LoadTransaction s (hexEncodeToString (hashValue h)) = inr tx
    ∧ state resp = SUCCESS
    ∧ Ledger resp = txLedger tx
    ∧ Hash (Item resp) = h
    ∧ b64DecodeString (txResultXdr tx) = inr (ResultXdr (Item resp))
    ∧ b64DecodeString (txEnvelopeXdr tx) = inr (EnvelopeXdr (Item resp))
    ∧ Cursor (Item resp) = getCursor (PT tx)
    ∧ (∀ url, AgoraDataUrl (Item resp) = Some url →
         ∃ memo, MemoFromXDRString (txHash tx) true = inr memo
                 ∧ resolver s memo = inr url)
    ∧ (∀ d, AgoraDataOf (Item resp) = Some d →
         ∃ memo, MemoFromXDRString (txHash tx) true = inr memo
                 ∧ txStore s (ForeignKey memo) = inr d).
Proof.
  unfold GetTransaction, TransactionServer.GetTransaction.
  destruct (ValidateGetTransaction req); [done|].
  destruct (reqTransactionHash req) as [h|]; [|done].
  destruct (LoadTransaction s _) as [err|tx] eqn:Hload.
  { destruct (horizonProblem err) as [st|]; [|done]. by case_match. }
  destruct (TransactionServer.getBinaryBlobs _ _ _ _ _) as [|[[hb r] e]] eqn:Hblobs;
    [done|].
  apply getBinaryBlobs_ok in Hblobs as (_ & Hr & He).
  destruct (MemoFromXDRString (txHash tx) true) as [|memo] eqn:Hmemo.
  - intros [= <-]. exists h, tx. simpl. repeat split; try done.
  - destruct (withAgoraData _ _ _ _ _) as [|item'] eqn:Hagora; [done|].
    apply withAgoraData_core in Hagora
      as (Hh & Hrx & Hex & Hc & Hurl & Hdata). simpl in *.
    intros [= <-]. exists h, tx. simpl.
    repeat split; try congruence.
    + intros url Hu. destruct (Hurl url Hu) as [?|?]; [done|eauto].
    + intros d Hd. destruct (Hdata d Hd) as [?|?]; [done|eauto].
Qed.

(** X15. Agora data is optional for [GetTransaction]: for a valid
    request whose transaction Horizon returns and whose blobs decode,
    the call answers with a response whenever the resolver and the store
    fail, if at all, with their own not-found errors. *)
Theorem GetTransaction_tolerates_missing_data (s : server) req h tx hb r e :
  ValidateGetTransaction req = None →
  reqTransactionHash req = Some h →
  LoadTransaction s (hexEncodeToString (hashValue h)) = inr tx →
  getBinaryBlobs (txHash tx) (txResultXdr tx) (txEnvelopeXdr tx) = inr (hb, r, e) →
  (∀ memo, MemoFromXDRString (txHash tx) true = inr memo →
     (∀ err, resolver s memo = inl err → err = StaticResolver.ErrNotFound)
     ∧ (∀ err, txStore s (ForeignKey memo) = inl err → err = dataErrNotFound)) →
  ∃ resp, GetTransaction s req = inr (inr resp).
Proof.
  intros Hval Hh Hload Hblobs Htol.
  unfold GetTransaction, TransactionServer.GetTransaction.
  rewrite Hval, Hh, Hload. unfold getBinaryBlobs in Hblobs. rewrite Hblobs.
  destruct (MemoFromXDRString (txHash tx) true) as [|memo]; [eauto|].
  destruct (Htol memo eq_refl) as [Hres Hstore].
  unfold withAgoraData.
  destruct (resolver s memo) as [rerr|url].
  - rewrite (Hres rerr eq_refl). rewrite decide_True by done.
    destruct (txStore s (ForeignKey memo)) as [serr|d]; [|eauto].
    rewrite (Hstore serr eq_refl). rewrite decide_True by done. eauto.
  - destruct (txStore s (ForeignKey memo)) as [serr|d]; [|eauto].
    rewrite (Hstore serr eq_refl). rewrite decide_True by done. eauto.
Qed.

(** X16. For a valid request, [GetTransaction] answers NotFound exactly
    when Horizon fails with a problem of status 404; every other failure
    of Horizon is Internal. *)
Theorem GetTransaction_not_found (s : server) req h :
  ValidateGetTransaction req = None →
  reqTransactionHash req = Some h →
  (GetTransaction s req = inr (inl (mkStatus NotFound "")) ↔
     ∃ err, LoadTransaction s (hexEncodeToString (hashValue h)) = inl err
            ∧ horizonProblem err = Some StatusNotFound)
  ∧ (∀ err, LoadTransaction s (hexEncodeToString (hashValue h)) = inl err →
       horizonProblem err ≠ Some StatusNotFound →
       GetTransaction s req = inr (inl (mkStatus Internal (ErrorText err)))).
Proof.
  intros Hval Hh. unfold GetTransaction, TransactionServer.GetTransaction.
  rewrite Hval, Hh.
  destruct (LoadTransaction s _) as [err|tx].
  - destruct (horizonProblem err) as [st|] eqn:Hp.
    + destruct (Z.eqb_spec st StatusNotFound) as [->|Hne].
      * split; [|by intros ? [= <-]]. split; [eauto|done].
      * split; [|by intros ? [= <-]].
        split; [done|]. intros (? & [= <-] & ?). congruence.
    + split; [|by intros ? [= <-]].
      split; [done|]. intros (? & [= <-] & ?). congruence.
  - split; [|done]. split; [|by intros (? & [=] & _)].
    destruct (TransactionServer.getBinaryBlobs _ _ _ _ _) as [|[[??]?]]; [done|].
    destruct (MemoFromXDRString _ _) as [|memo]; [done|].
    unfold withAgoraData.
    destruct (resolver s memo); repeat case_decide;
      destruct (txStore s (ForeignKey memo)); repeat case_decide; done.
Qed.

Lemma historyItem_decodes (s : server) tx item :
  historyItem s tx = inr item → decodesTo tx item.
Proof.
  unfold historyItem, TransactionServer.historyItem, decodesTo,
    TransactionServer.decodesTo.
  destruct (TransactionServer.getBinaryBlobs _ _ _ _ _) as [|[[hb r] e]] eqn:Hblobs;
    [done|].
  apply getBinaryBlobs_ok in Hblobs as (Hh & Hr & He).
  destruct (MemoFromXDRString (txHash tx) true) as [|memo].
  { by intros [= <-]. }
  destruct (resolver s memo) as [rerr|url].
  { case_decide; [|done]. by intros [= <-]. }
  destruct (txStore s (ForeignKey memo)) as [serr|d].
  - case_decide; [done|]. by intros [= <-].
  - by intros [= <-].
Qed.

Lemma historyItems_decode (s : server) txs : ∀ items,
  historyItems s txs = inr items → Forall2 decodesTo txs items.
Proof.
  induction txs as [|tx txs IH]; simpl; intros items.
  - intros [= <-]. constructor.
  - fold historyItem. destruct (historyItem s tx) as [|item] eqn:Hitem; [done|].
    fold historyItems. destruct (historyItems s txs) as [|rest]; [done|].
    intros [= <-]. constructor; [by apply (historyItem_decodes s)|by apply IH].
Qed.

Lemma historyItem_fails_Internal (s : server) tx st :
  historyItem s tx = inl st → code st = Internal.
Proof.
  unfold historyItem, TransactionServer.historyItem.
  destruct (TransactionServer.getBinaryBlobs _ _ _ _ _) as [|[[hb r] e]];
    [by intros [= <-]|].
  destruct (MemoFromXDRString (txHash tx) true) as [|memo]; [done|].
  destruct (resolver s memo) as [rerr|url].
  { case_decide; [done|]. by intros [= <-]. }
  destruct (txStore s (ForeignKey memo)) as [serr|d]; [|done].
  case_decide; [|done]. by intros [= <-].
Qed.

Lemma historyItems_fail_Internal (s : server) txs st :
  historyItems s txs = inl st → code st = Internal.
Proof.
  induction txs as [|tx txs IH]; simpl; [done|].
  fold historyItem. destruct (historyItem s tx) as [st0|item] eqn:Hitem.
  { intros [= <-]. by eapply historyItem_fails_Internal. }
  fold historyItems. destruct (historyItems s txs) as [st1|rest]; [|done].
  intros [= <-]. by apply IH.
Qed.

Lemma historyItems_fail (s : server) txs tx st0 :
  tx ∈ txs → historyItem s tx = inl st0 →
  ∃ st, historyItems s txs = inl st.
Proof.
  intros Hin Hfail. induction txs as [|tx' txs IH]; [by apply elem_of_nil in Hin|].
  simpl. fold historyItem historyItems.
  apply elem_of_cons in Hin as [<-|Hin].
  - rewrite Hfail. eauto.
  - destruct (historyItem s tx'); [eauto|].
    destruct (IH Hin) as [st ->]. eauto.
Qed.

Lemma GetHistory_unfold (s : server) req txnReq records :
  ValidateGetHistory req = None →
  historyRequest req = inr txnReq →
  Transactions s txnReq = inr records →
  GetHistory s req
  = match historyItems s records with
    | inl st => inr (inl st)
    | inr items => inr (inr (mkGetHistoryResponse items))
    end.
Proof.
  intros Hval Hreq Hrec. unfold GetHistory, TransactionServer.GetHistory.
  by rewrite Hval, Hreq, Hrec.
Qed.

(** X17. A history [GetHistory] answers with shows the records Horizon
    returned for the request, one item per record and in the same order:
    each item carries what the hash, the result and the envelope of its
    record decode to, and the cursor of the record's paging token. *)
Theorem GetHistory_items (s : server) req resp :
  GetHistory s req = inr (inr resp) →
  ∃ txnReq records,
    historyRequest req = inr txnReq
    ∧ Transactions s txnReq = inr records
    ∧ Forall2 decodesTo records (Items resp)
    ∧ length (Items resp) = length records.
Proof.
  unfold GetHistory, TransactionServer.GetHistory.
  destruct (ValidateGetHistory req); [done|].
  destruct (historyRequest req) as [|txnReq]; [done|].
  destruct (Transactions s txnReq) as [err|records] eqn:Hrec.
  { destruct (horizonclientProblem err); [|done]. by case_match. }
  destruct (TransactionServer.historyItems _ _ _ _ _ _ _ _) as [|items] eqn:Hitems;
    [done|].
  intros [= <-]. exists txnReq, records. simpl.
  apply historyItems_decode in Hitems.
  do 3 (split; [done|]). symmetry. by eapply Forall2_length.
Qed.

(** X18. [GetHistory] answers all records or none: when the hash, the
    result or the envelope of any record Horizon returned does not
    decode, the call fails with Internal and no item comes back. *)
Theorem GetHistory_all_or_nothing (s : server) req txnReq records tx err :
  ValidateGetHistory req = None →
  historyRequest req = inr txnReq →
  Transactions s txnReq = inr records →
  tx ∈ records →
  getBinaryBlobs (txHash tx) (txResultXdr tx) (txEnvelopeXdr tx) = inl err →
  ∃ st, GetHistory s req = inr (inl st) ∧ code st = Internal.
Proof.
  intros Hval Hreq Hrec Hin Hblobs.
  rewrite (GetHistory_unfold s req txnReq records Hval Hreq Hrec).
  destruct (historyItems_fail s records tx (mkStatus Internal (ErrorText err)) Hin)
    as [st Hst].
  { unfold historyItem, TransactionServer.historyItem.
    unfold getBinaryBlobs in Hblobs. by rewrite Hblobs. }
  rewrite Hst. exists st. split; [done|]. by eapply historyItems_fail_Internal.
Qed.

(** X19. In [GetHistory] the two kinds of store failure act as follows.
    When the store answers [data.ErrNotFound] for the memo of a record
    whose data URL resolved, the call fails with Internal.  When, for
    every record, the store fails with another error, the failure is
    passed over: the history comes back, each item with its data URL
    and without data. *)
Theorem GetHistory_store_errors (s : server) req txnReq records :
  ValidateGetHistory req = None →
  historyRequest req = inr txnReq →
  Transactions s txnReq = inr records →
  (∀ tx hb r e memo url,
     tx ∈ records →
     getBinaryBlobs (txHash tx) (txResultXdr tx) (txEnvelopeXdr tx)
     = inr (hb, r, e) →
     MemoFromXDRString (txHash tx) true = inr memo →
     resolver s memo = inr url →
     txStore s (ForeignKey memo) = inl dataErrNotFound →
     ∃ st, GetHistory s req = inr (inl st) ∧ code st = Internal)
  ∧ ((∀ tx, tx ∈ records →
        ∃ hb r e memo url err,
          getBinaryBlobs (txHash tx) (txResultXdr tx) (txEnvelopeXdr tx)
          = inr (hb, r, e)
          ∧ MemoFromXDRString (txHash tx) true = inr memo
          ∧ resolver s memo = inr url
          ∧ txStore s (ForeignKey memo) = inl err
          ∧ err ≠ dataErrNotFound) →
     ∃ resp,
       GetHistory s req = inr (inr resp)
       ∧ length (Items resp) = length records
       ∧ Forall (λ item, AgoraDataOf item = None ∧ is_Some (AgoraDataUrl item))
           (Items resp)).
Proof.
  intros Hval Hreq Hrec.
  rewrite (GetHistory_unfold s req txnReq records Hval Hreq Hrec).
  split.
  - intros tx hb r e memo url Hin Hblobs Hmemo Hres Hstore.
    destruct (historyItems_fail s records tx
                (mkStatus Internal "failed to retrieve agora data") Hin)
      as [st Hst].
    { unfold historyItem, TransactionServer.historyItem.
      unfold getBinaryBlobs in Hblobs. rewrite Hblobs, Hmemo, Hres, Hstore.
      by rewrite decide_True. }
    rewrite Hst. exists st. split; [done|]. by eapply historyItems_fail_Internal.
  - clear Hrec. induction records as [|tx records IH]; intros Hall.
    + simpl. eexists. split; [done|]. split; [done|]. constructor.
    + destruct (Hall tx) as (hb & r & e & memo & url & err & Hblobs & Hmemo
                              & Hres & Hstore & Hne); [by left|].
      destruct IH as (resp & Hresp & Hlen & Hitems).
      { intros tx' Hin. apply Hall. by right. }
      simpl. fold historyItem historyItems.
      unfold historyItem at 1, TransactionServer.historyItem.
      unfold getBinaryBlobs in Hblobs. rewrite Hblobs, Hmemo, Hres, Hstore.
      rewrite decide_False by done.
      destruct (historyItems s records) as [|rest]; [done|].
      injection Hresp as <-. simpl in *.
      eexists. split; [done|]. simpl. split; [by rewrite Hlen|].
      constructor; [|done]. simpl. split; [done|eauto].
Qed.

(** X20. A cursor handed out with an item leads back to that item: the
    cursor of a paging token is nil only for the empty token, and a
    request that carries the cursor of a paging token asks Horizon for
    exactly that token, for the account of the request, without failed
    transactions, in the order of the requested direction; a request
    without cursor sends the empty cursor. *)
Theorem history_resumes_at_cursor req account :
  reqAccountId req = Some account →
  ∃ txnReq,
    historyRequest req = inr txnReq
    ∧ ForAccount txnReq = account
    ∧ IncludeFailed txnReq = false
    ∧ (reqDirection req = ASC → txnOrder txnReq = Some Ingestion.OrderAsc)
    ∧ (reqDirection req = DESC → txnOrder txnReq = Some Ingestion.OrderDesc)
    ∧ (reqCursor req = None → txnCursor txnReq = "")
    ∧ (∀ pt c, getCursor pt = Some c → reqCursor req = Some c →
         txnCursor txnReq = pt)
    ∧ (∀ pt, getCursor pt = None ↔ pt = "").
Proof.
  intros Hacc. unfold historyRequest. rewrite Hacc. eexists. split; [done|].
  simpl. repeat split.
  - by intros ->.
  - by intros ->.
  - by intros ->.
  - intros pt c Hc ->. unfold getCursor in Hc. case_decide; [done|].
    injection Hc as <-. apply String.string_of_list_byte_of_string.
  - unfold getCursor. by case_decide.
  - intros ->. unfold getCursor. by rewrite decide_True.
Qed.

End Facts.

Import Examples MoreExamples.

Lemma GetTransaction_response_witness :
  ∃ resp h tx,
    getTransaction (serverWith noData []) (lookupOf [Byte.x01; Byte.xff])
    = inr (inr resp)
    ∧ LoadTransaction (serverWith noData []) (hexEncode (hashValue h)) = inr tx
    ∧ Ledger resp = txLedger tx
    ∧ Cursor (Item resp) = getCursor (PT tx).
Proof.
  eexists.
  edestruct (GetTransaction_response bytes hexDecode hexEncode decodeString
               memoOf foreignKey errorText problemOf (λ _, None)
               (serverWith noData []) (lookupOf [Byte.x01; Byte.xff]))
    as (h & tx & _ & Hload & _ & Hledger & _ & _ & _ & Hcursor & _).
  { vm_compute. reflexivity. }
  exists h, tx. split; [reflexivity|]. split; [exact Hload|].
  split; [exact Hledger|exact Hcursor].
Defined.

Lemma GetTransaction_tolerates_missing_data_witness :
  ∃ resp,
    getTransaction (serverWith noData []) (lookupOf [Byte.x01; Byte.xff])
    = inr (inr resp).
Proof.
  eapply (GetTransaction_tolerates_missing_data bytes hexDecode hexEncode
            decodeString memoOf foreignKey errorText problemOf (λ _, None)
            (serverWith noData []) (lookupOf [Byte.x01; Byte.xff])
            (mkTransactionHash [Byte.x01; Byte.xff]) memoTx).
  - reflexivity.
  - reflexivity.
  - reflexivity.
  - vm_compute. reflexivity.
  - intros memo _. split; intros err H.
    + discriminate H.
    + injection H as <-. reflexivity.
Defined.

Lemma GetTransaction_not_found_witness :
  getTransaction (serverWith noData []) (lookupOf [Byte.x00; Byte.xfe])
  = inr (inl (mkStatus NotFound "")).
Proof.
  apply (proj2 (proj1 (GetTransaction_not_found bytes hexDecode hexEncode
                         decodeString memoOf foreignKey errorText problemOf
                         (λ _, None) (serverWith noData [])
                         (lookupOf [Byte.x00; Byte.xfe])
                         (mkTransactionHash [Byte.x00; Byte.xfe])
                         eq_refl eq_refl))).
  exists missing. split; reflexivity.
Defined.

Lemma GetHistory_items_witness :
  ∃ resp,
    getHistory (serverWith storeDown [plainTx; memoTx]) (historyOf "GA")
    = inr (inr resp)
    ∧ Forall2 (decodesTo bytes hexDecode decodeString) [plainTx; memoTx]
        (Items resp).
Proof.
  eexists.
  edestruct (GetHistory_items bytes hexDecode decodeString memoOf foreignKey
               errorText problemOf (λ _, None)
               (serverWith storeDown [plainTx; memoTx]) (historyOf "GA"))
    as (txnReq & records & _ & Hrec & Hitems & _).
  { vm_compute. reflexivity. }
  split; [reflexivity|]. injection Hrec as <-. exact Hitems.
Defined.

Lemma GetHistory_all_or_nothing_witness :
  ∃ st,
    getHistory (serverWith noData [plainTx; badTx]) (historyOf "GA")
    = inr (inl st)
    ∧ code st = Internal.
Proof.
  eapply (GetHistory_all_or_nothing bytes hexDecode decodeString memoOf
            foreignKey errorText problemOf (λ _, None)
            (serverWith noData [plainTx; badTx]) (historyOf "GA")
            _ [plainTx; badTx] badTx).
  - reflexivity.
  - reflexivity.
  - reflexivity.
  - apply elem_of_cons. right. apply elem_of_cons. by left.
  - vm_compute. reflexivity.
Defined.

Lemma GetHistory_store_errors_witness :
  (∃ st,
     getHistory (serverWith noData [memoTx]) (historyOf "GA") = inr (inl st)
     ∧ code st = Internal)
  ∧ (∃ resp,
       getHistory (serverWith storeDown [memoTx]) (historyOf "GA")
       = inr (inr resp)
       ∧ length (Items resp) = 1%nat
       ∧ Forall (λ item, AgoraDataOf item = None ∧ is_Some (AgoraDataUrl item))
           (Items resp)).
Proof.
  split.
  - eapply (proj1 (GetHistory_store_errors bytes hexDecode decodeString memoOf
                     foreignKey errorText problemOf (λ _, None)
                     (serverWith noData [memoTx]) (historyOf "GA")
                     _ [memoTx] eq_refl eq_refl eq_refl) memoTx).
    + apply elem_of_cons. by left.
    + vm_compute. reflexivity.
    + reflexivity.
    + reflexivity.
    + reflexivity.
  - apply (proj2 (GetHistory_store_errors bytes hexDecode decodeString memoOf
                    foreignKey errorText problemOf (λ _, None)
                    (serverWith storeDown [memoTx]) (historyOf "GA")
                    _ [memoTx] eq_refl eq_refl eq_refl)).
    intros tx Hin.
    apply elem_of_cons in Hin as [->|Hin]; [|by apply elem_of_nil in Hin].
    eexists _, _, _, _, _, _.
    split; [vm_compute; reflexivity|]. split; [reflexivity|].
    split; [reflexivity|]. split; [reflexivity|]. discriminate.
Defined.

Lemma history_resumes_at_cursor_witness :
  ∃ txnReq,
    historyRequest
      (mkGetHistoryRequest (Some "GA") DESC (getCursor "30064771072"))
    = inr txnReq
    ∧ ForAccount txnReq = "GA"
    ∧ txnOrder txnReq = Some Ingestion.OrderDesc
    ∧ txnCursor txnReq = "30064771072".
Proof.
  destruct (history_resumes_at_cursor
              (mkGetHistoryRequest (Some "GA") DESC (getCursor "30064771072"))
              "GA" eq_refl)
    as (txnReq & Hreq & Hacc & _ & _ & Hdesc & _ & Hcur & _).
  exists txnReq. split; [exact Hreq|]. split; [exact Hacc|].
  split; [exact (Hdesc eq_refl)|].
  exact (Hcur "30064771072" _ eq_refl eq_refl).
Defined.

End TransactionServerFacts.
